(** * Skeletonization: TEASAR extraction, path union, chunk tasks and merge

    A shallow embedding of
      igneous/tasks/skeletonization/skeletonization.py  (TEASAR, path_union)
      igneous/tasks/skeletonization/tasks.py            (SkeletonTask, SkeletonMergeTask)
    Python dicts and sets are stdpp [gmap] and [gset]; numpy arrays are lists
    (flat or by rows) or maps from voxel coordinates; exceptions are the
    [Raise] results of a small error monad; the storage collaborators are a
    log of the operations issued, in program order. *)

From Stdlib Require Import ZArith QArith Lia.
From stdpp Require Import gmap list sorting strings.

Local Open Scope Z_scope.

(** ** Python exceptions and the error monad *)

Inductive exn : Set :=
  | IndexError | KeyError | RecursionError | TypeError | ValueError | NameError.

Inductive result (A : Type) : Type :=
  | Ok (a : A)
  | Raise (e : exn).
Arguments Ok {A} a.
Arguments Raise {A} e.

Definition rbind {A B} (r : result A) (k : A → result B) : result B :=
  match r with
  | Ok a => k a
  | Raise e => Raise e
  end.

Notation "x ←r r ; k" := (rbind r (λ x, k))
  (at level 20, r at level 100, k at level 200, only parsing).

Definition is_Ok {A} (r : result A) : Prop := ∃ a, r = Ok a.

(** A voxel coordinate: one row [path[i, :]] of a path array, as a tuple. *)
Definition coord : Type := Z * Z * Z.

(** Storing a Python int into a [np.uint32] array. *)
Definition u32 (z : Z) : Z := z mod 2 ^ 32.

Definition in_u32 (c : coord) : Prop :=
  let '(x, y, z) := c in
  (0 ≤ x < 2 ^ 32) ∧ (0 ≤ y < 2 ^ 32) ∧ (0 ≤ z < 2 ^ 32).

(** A float as the arrays hold it: an exact rational, or [+inf].  Rounding
    is not modelled. *)
Inductive fval : Type :=
  | Fin (q : Q)
  | PInf.

(** ** path_union (skeletonization.py, lines 93-140) *)
Module PathUnion.

(** The three containers the first loop fills, with the counter [ct]:
    [tree] is the [defaultdict(set)], [tree_id] the dict of vertex ids,
    [vertices] the list in registration order. *)
Record reg_state : Type := RegState {
  tree : gmap coord (gset coord);
  tree_id : gmap coord nat;
  vertices : list coord;
  ct : nat
}.

Definition reg_init : reg_state := RegState ∅ ∅ [] 0.

(** [tree[parent]] on a [defaultdict(set)]: a missing key reads as the
    empty set. *)
Definition children (t : gmap coord (gset coord)) (p : coord) : gset coord :=
  default ∅ (t !! p).

(** [if not v in tree_id: tree_id[v] = ct; vertices.append(v); ct += 1] *)
Definition assign_id (v : coord) (st : reg_state) : reg_state :=
  match tree_id st !! v with
  | Some _ => st
  | None =>
      RegState (tree st) (<[v := ct st]> (tree_id st))
               (vertices st ++ [v]) (S (ct st))
  end.

(** [tree[parent].add(child)] *)
Definition add_child (parent child : coord) (st : reg_state) : reg_state :=
  RegState (<[parent := children (tree st) parent ∪ {[child]}]> (tree st))
           (tree_id st) (vertices st) (ct st).

(** [if not child in tree: tree[child] = set()] *)
Definition touch (child : coord) (st : reg_state) : reg_state :=
  match tree st !! child with
  | Some _ => st
  | None => RegState (<[child := ∅]> (tree st)) (tree_id st) (vertices st) (ct st)
  end.

(** The body of the inner loop, lines 105-117. *)
Definition register_pair (st : reg_state) (pc : coord * coord) : reg_state :=
  let '(parent, child) := pc in
  assign_id child (touch child (assign_id parent (add_child parent child st))).

(** The pairs [(path[i], path[i+1])] for [i in range(path.shape[0] - 1)]. *)
Fixpoint consecutive (path : list coord) : list (coord * coord) :=
  match path with
  | a :: tl =>
      match tl with
      | b :: _ => (a, b) :: consecutive tl
      | [] => []
      end
  | [] => []
  end.

Definition register_path (st : reg_state) (path : list coord) : reg_state :=
  foldl register_pair st (consecutive path).

Definition register (paths : list (list coord)) : reg_state :=
  foldl register_path reg_init paths.

(** [root = tuple(paths[0][0,:].tolist())] *)
Definition root_of (paths : list (list coord)) : result coord :=
  match paths with
  | (r :: _) :: _ => Ok r
  | _ => Raise IndexError
  end.

(** [tree_id[v]] *)
Definition id_of (ids : gmap coord nat) (v : coord) : result nat :=
  match ids !! v with
  | Some i => Ok i
  | None => Raise KeyError
  end.

(** The loop [for child in tree[parent]] of one call of [traverse]:
    [edges.append([tree_id[parent], tree_id[child]])], then the nested
    call [recur child].  The result is the list of edges appended, in
    the order appended. *)
Fixpoint each_child (ids : gmap coord nat)
    (recur : coord → result (list (nat * nat)))
    (parent : coord) (cs : list coord) : result (list (nat * nat)) :=
  match cs with
  | [] => Ok []
  | child :: cs' =>
      a ←r id_of ids parent;
      b ←r id_of ids child;
      below ←r recur child;
      rest ←r each_child ids recur parent cs';
      Ok ((a, b) :: below ++ rest)
  end.

(** The recursive closure [traverse].  [depth] is the number of nested
    calls the interpreter still allows: at zero the call raises
    [RecursionError].  A Python set is iterated in an order the language
    does not fix; [elements] plays that role. *)
Fixpoint traverse (t : gmap coord (gset coord)) (ids : gmap coord nat)
    (depth : nat) (parent : coord) : result (list (nat * nat)) :=
  match depth with
  | O => Raise RecursionError
  | S depth' =>
      each_child ids (traverse t ids depth') parent
                 (elements (children t parent))
  end.

(** [npv]: the vertex list flattened into a [uint32] array. *)
Definition pack_vertices (vs : list coord) : list Z :=
  flat_map (λ '(x, y, z), [u32 x; u32 y; u32 z]) vs.

(** [npe]: the edge list flattened into a [uint32] array. *)
Definition pack_edges (es : list (nat * nat)) : list Z :=
  flat_map (λ '(a, b), [u32 (Z.of_nat a); u32 (Z.of_nat b)]) es.

(** The Python lists [vertices] and [edges] just before packing. *)
Definition path_union_lists (depth : nat) (paths : list (list coord))
    : result (list coord * list (nat * nat)) :=
  let st := register paths in
  root ←r root_of paths;
  edges ←r traverse (tree st) (tree_id st) depth root;
  Ok (vertices st, edges).

Definition path_union (depth : nat) (paths : list (list coord))
    : result (list Z * list Z) :=
  r ←r path_union_lists depth paths;
  Ok (pack_vertices r.1, pack_edges r.2).

(** [skel_verts.reshape((size // 3, 3))] and [skel_edges.reshape((size // 2, 2))],
    as TEASAR reads the two arrays back. *)
Fixpoint rows3 (l : list Z) : list coord :=
  match l with
  | x :: y :: z :: tl => (x, y, z) :: rows3 tl
  | _ => []
  end.

Fixpoint rows2 (l : list Z) : list (Z * Z) :=
  match l with
  | a :: b :: tl => (a, b) :: rows2 tl
  | _ => []
  end.

(** *** Notions used to state the properties of [path_union] *)

(** Every (parent, child) pair the first loop visits, in order. *)
Definition all_pairs (paths : list (list coord)) : list (coord * coord) :=
  mjoin (consecutive <$> paths).

(** What the registration loop establishes about its containers once it
    has visited the pairs [ps]. *)
Record reg_inv (ps : list (coord * coord)) (st : reg_state) : Prop := {
  inv_adj : ∀ p c, c ∈ children (tree st) p ↔ (p, c) ∈ ps;
  inv_ids : ∀ v (i : nat), tree_id st !! v = Some i ↔ vertices st !! i = Some v;
  inv_ct : ct st = length (vertices st);
  inv_mem : ∀ v, v ∈ vertices st ↔ ∃ q, (v, q) ∈ ps ∨ (q, v) ∈ ps
}.

(** The vertex id [tree_id] gives a registered coordinate. *)
Definition idx (ids : gmap coord nat) (v : coord) : nat :=
  default 0%nat (ids !! v).

(** The same traversal on coordinates: the (parent, child) pairs in the
    order [traverse] appends their ids, [None] when the nesting exceeds
    [depth]. *)
Fixpoint each_edge (recur : coord → option (list (coord * coord)))
    (parent : coord) (cs : list coord) : option (list (coord * coord)) :=
  match cs with
  | [] => Some []
  | child :: cs' =>
      below ← recur child;
      rest ← each_edge recur parent cs';
      Some ((parent, child) :: below ++ rest)
  end.

Fixpoint walk_edges (t : gmap coord (gset coord)) (depth : nat)
    (parent : coord) : option (list (coord * coord)) :=
  match depth with
  | O => None
  | S depth' =>
      each_edge (walk_edges t depth') parent (elements (children t parent))
  end.

(** [steps t p n y]: [y] is reached from [p] by following [n] adjacency
    links of [t]. *)
Inductive steps (t : gmap coord (gset coord)) (p : coord) : nat → coord → Prop :=
  | steps_O : steps t p 0 p
  | steps_S n x y : steps t p n x → y ∈ children t x → steps t p (S n) y.

Definition reachable (t : gmap coord (gset coord)) (p y : coord) : Prop :=
  ∃ n, steps t p n y.

(** The edge of ids [traverse] appends for a coordinate edge, and the
    result of [traverse] for a result of [walk_edges]. *)
Definition id_edge (ids : gmap coord nat) (e : coord * coord) : nat * nat :=
  (idx ids e.1, idx ids e.2).

Definition ids_of_walk (ids : gmap coord nat)
    (r : option (list (coord * coord))) : result (list (nat * nat)) :=
  match r with
  | Some ces => Ok (id_edge ids <$> ces)
  | None => Raise RecursionError
  end.

(** [at_level paths c i]: the coordinate [c] stands at index [i] of one
    of the paths. *)
Definition at_level (paths : list (list coord)) (c : coord) (i : nat) : Prop :=
  ∃ path, path ∈ paths ∧ path !! i = Some c.

(** The conditions under which a list of paths is a tree rooted at
    [root], as decidable statements on the input. *)
Definition shares_root (root : coord) (paths : list (list coord)) : Prop :=
  Forall (λ path, head path = Some root) paths.

Definition single_parent (paths : list (list coord)) : Prop :=
  Forall (λ pc1 : coord * coord,
    Forall (λ pc2 : coord * coord, pc1.2 = pc2.2 → pc1.1 = pc2.1)
           (all_pairs paths)) (all_pairs paths).

Definition root_not_child (root : coord) (paths : list (list coord)) : Prop :=
  Forall (λ pc : coord * coord, pc.2 ≠ root) (all_pairs paths).

Definition fits_depth (depth : nat) (paths : list (list coord)) : Prop :=
  Forall (λ path : list coord, (length path ≤ depth)%nat) paths.

(** The coordinates the first loop meets, in the order it meets them,
    and the list of their first occurrences. *)
Definition endpoints (ps : list (coord * coord)) : list coord :=
  ps ≫= λ pc, [pc.1; pc.2].

Definition see (acc : list coord) (v : coord) : list coord :=
  if decide (v ∈ acc) then acc else acc ++ [v].

Definition first_seen (l : list coord) : list coord := foldl see [] l.

(** A coordinate occurs in some path of at least two coordinates. *)
Definition occurs (c : coord) (paths : list (list coord)) : Prop :=
  ∃ q, (c, q) ∈ all_pairs paths ∨ (q, c) ∈ all_pairs paths.

(** The number of distinct roots the paths start from. *)
Definition num_roots (paths : list (list coord)) : nat :=
  size (list_to_set (omap head paths) : gset coord).

(** Tree validity as the specification words it: as many edges as
    vertices less the number of disjoint roots, and no position listed
    twice. *)
Definition tree_validity (depth : nat) (paths : list (list coord)) : Prop :=
  ∀ npv npe, path_union depth paths = Ok (npv, npe) →
    length (rows2 npe) = (length (rows3 npv) - num_roots paths)%nat ∧
    NoDup (rows3 npv).

(** The edges of a chain of [n] vertices numbered in order. *)
Definition chain_edges (n : nat) : list (nat * nat) :=
  (λ i, (i, S i)) <$> seq 0 (n - 1).

(** Sample inputs: two routes from the root that meet again, two paths
    that share no coordinate, and two paths that share their first link. *)
Definition diamond : list (list coord) :=
  [[(0, 0, 0); (1, 0, 0); (1, 1, 0)]; [(0, 0, 0); (0, 1, 0); (1, 1, 0)]].

Definition two_roots : list (list coord) :=
  [[(0, 0, 0); (1, 0, 0)]; [(5, 5, 5); (6, 5, 5)]].

Definition fork : list (list coord) :=
  [[(0, 0, 0); (1, 0, 0); (2, 0, 0)]; [(0, 0, 0); (1, 0, 0); (1, 1, 0)]].

End PathUnion.

(** ** Skeletons, bounding boxes and the collaborators of the tasks *)

(** A vertex position: a row of the float array [nodes]. *)
Definition position : Type := Q * Q * Q.

(** Modelled from the spec: the [Skeleton] class of definitions.py, which
    is not among the sources: a vertex list, an edge list of index pairs
    and one radius per vertex.  [Skeleton()] has no vertex and no edge, and
    [empty()] tells whether the vertex list is empty. *)
Record Skeleton : Type := MkSkeleton {
  nodes : list position;
  edges : list (Z * Z);
  radii : list fval
}.

Definition Skeleton_new : Skeleton := MkSkeleton [] [] [].

Definition empty (s : Skeleton) : bool :=
  match nodes s with
  | [] => true
  | _ => false
  end.

(** [cloudvolume.lib.Bbox]: an integer box, [maxpt] exclusive. *)
Record Bbox : Type := MkBbox { minpt : coord; maxpt : coord }.

#[global] Instance Bbox_eq_dec : EqDecision Bbox.
Proof. solve_decision. Defined.

Definition Bbox_volume (b : Bbox) : Z :=
  let '(x0, y0, z0) := minpt b in
  let '(x1, y1, z1) := maxpt b in
  (x1 - x0) * (y1 - y0) * (z1 - z0).

Definition Bbox_intersects (a b : Bbox) : bool :=
  let '(ax0, ay0, az0) := minpt a in
  let '(ax1, ay1, az1) := maxpt a in
  let '(bx0, by0, bz0) := minpt b in
  let '(bx1, by1, bz1) := maxpt b in
  bool_decide (ax0 < bx1 ∧ ay0 < by1 ∧ az0 < bz1) &&
  bool_decide (bx0 < ax1 ∧ by0 < ay1 ∧ bz0 < az1).

Definition coord_add (a b : coord) : coord :=
  let '(x, y, z) := a in
  let '(dx, dy, dz) := b in
  (x + dx, y + dy, z + dz).

(** [roi += v] *)
Definition Bbox_translate (b : Bbox) (v : coord) : Bbox :=
  MkBbox (coord_add (minpt b) v) (coord_add (maxpt b) v).

(** A labelled cutout [vol[bbox.to_slices()][:,:,:,0]], indexed [img[x][y][z]]. *)
Definition image : Type := list (list (list Z)).

(** What the stage-2 task reads from outside this module.  [get_files]
    gives, per file returned, its name and its unpickled content, [None]
    when the store has no content for it. *)
Record Collaborators : Type := MkCollaborators {
  from_filename : string → Bbox;
  segid_search : string → option Z;
  basename : string → string;
  read_volume : Bbox → image;
  get_files : list string → list (string * option Skeleton);
  merge_skeletons : Skeleton → Skeleton → Skeleton * Skeleton;
  consolidate_skeleton : Skeleton → Skeleton;
  trim_skeleton : Skeleton → list coord → Skeleton
}.

(** The operations issued on the two stores, in program order. *)
Inductive event : Type :=
  | Upload (segid : Z) (s : Skeleton)
  | PutFile (key : string) (s : Skeleton)
  | PutJson (segid : Z) (fragments : list string)
  | Wait
  | DeleteFiles (names : list string).

(** A Python dict whose iteration order matters: keys in insertion order. *)
Fixpoint dict_set {V} (k : string) (v : V) (d : list (string * V)) : list (string * V) :=
  match d with
  | [] => [(k, v)]
  | (k', v') :: d' =>
      if decide (k = k') then (k, v) :: d' else (k', v') :: dict_set k v d'
  end.

Fixpoint dict_get {V} (k : string) (d : list (string * V)) : result V :=
  match d with
  | [] => Raise KeyError
  | (k', v') :: d' => if decide (k = k') then Ok v' else dict_get k d'
  end.

(** ** SkeletonMergeTask (tasks.py, lines 163-291) *)
Module SkeletonMergeTask.

(** [pickle.loads(item['content'])] *)
Definition pickle_loads (content : option Skeleton) : result Skeleton :=
  match content with
  | Some s => Ok s
  | None => Raise TypeError
  end.

(** [{ item['filename'] : pickle.loads(item['content']) for item in skldl }] *)
Fixpoint load_all (skldl : list (string * option Skeleton))
    (d : list (string * Skeleton)) : result (list (string * Skeleton)) :=
  match skldl with
  | [] => Ok d
  | (name, content) :: rest =>
      s ←r pickle_loads content;
      load_all rest (dict_set name s d)
  end.

(** [find_paired_skeletons]: the pairs [i < j] whose boxes intersect. *)
Fixpoint find_paired_skeletons (C : Collaborators) (filenames : list string)
    : list (string * string) :=
  match filenames with
  | [] => []
  | f :: rest =>
      ((λ g, (f, g)) <$>
         filter (λ g, Bbox_intersects (from_filename C f) (from_filename C g) = true) rest)
      ++ find_paired_skeletons C rest
  end.

(** The loop over [file_pairs], lines 252-256. *)
Fixpoint reconcile (C : Collaborators) (pairs : list (string * string))
    (d : list (string * Skeleton)) : result (list (string * Skeleton)) :=
  match pairs with
  | [] => Ok d
  | (fname1, fname2) :: rest =>
      skel1 ←r dict_get fname1 d;
      skel2 ←r dict_get fname2 d;
      let m := merge_skeletons C skel1 skel2 in
      reconcile C rest (dict_set fname2 m.2 (dict_set fname1 m.1 d))
  end.

(** [skel.edges = skel.edges.astype(np.uint32); skel.edges += offset] *)
Definition shift_edges (offset : Z) (es : list (Z * Z)) : list (Z * Z) :=
  (λ e, (u32 (u32 e.1 + offset), u32 (u32 e.2 + offset))) <$> es.

(** The fusing loop, lines 262-272, from the state [(fusing, offset)]. *)
Fixpoint fuse_loop (fusing : Skeleton) (offset : Z) (rest : list Skeleton)
    : Skeleton :=
  match rest with
  | [] => fusing
  | skel :: rest' =>
      match edges skel with
      | [] => fuse_loop fusing offset rest'
      | _ :: _ =>
          let es := shift_edges offset (edges skel) in
          let offset' := offset + Z.of_nat (length (nodes skel)) in
          fuse_loop (MkSkeleton (nodes fusing ++ nodes skel)
                                (edges fusing ++ es)
                                (radii fusing ++ radii skel))
                    offset' rest'
      end
  end.

(** Lines 258-272: [fusing = skeletons[0]; offset = 0] and the loop. *)
Definition fuse (skeletons : list Skeleton) : result Skeleton :=
  match skeletons with
  | [] => Raise IndexError
  | fusing :: rest => Ok (fuse_loop fusing 0 rest)
  end.

Definition fuse_skeletons (C : Collaborators) (filenames : list string)
    : result Skeleton :=
  match filenames with
  | [] => Ok Skeleton_new
  | first :: _ =>
      skeletons ←r load_all (get_files C filenames) [];
      if decide (length skeletons = 1%nat) then dict_get first skeletons
      else
        skeletons ←r reconcile C (find_paired_skeletons C filenames) skeletons;
        fusing ←r fuse (skeletons.*2);
        Ok (consolidate_skeleton C fusing)
  end.

(** [np.argwhere(img == segid)]: the indices of the matching voxels, in
    row-major order. *)
Definition argwhere (img : image) (segid : Z) : list coord :=
  mjoin (imap (λ x plane,
    mjoin (imap (λ y row,
      mjoin (imap (λ z v,
        if decide (v = segid)
        then [(Z.of_nat x, Z.of_nat y, Z.of_nat z)] else []) row)) plane)) img).

(** [ptcloud.sort(axis=0)]: every column is sorted on its own. *)
Definition sort_axis0 (rows : list coord) : list coord :=
  let xs := merge_sort Z.le (rows.*1.*1) in
  let ys := merge_sort Z.le (rows.*1.*2) in
  let zs := merge_sort Z.le (rows.*2) in
  zip (zip xs ys) zs.

Definition coord_le (a b : coord) : Prop :=
  let '(x, y, z) := a in
  let '(x', y', z') := b in
  x < x' ∨ (x = x' ∧ (y < y' ∨ (y = y' ∧ z ≤ z'))).

#[global] Instance coord_le_dec (a b : coord) : Decision (coord_le a b).
Proof. destruct a as [[x y] z], b as [[x' y'] z']. cbn. apply _. Defined.

(** Dropping repeated neighbours of a sorted list. *)
Fixpoint squeeze (rows : list coord) : list coord :=
  match rows with
  | [] => []
  | a :: tl =>
      match tl with
      | [] => [a]
      | b :: _ => if decide (a = b) then squeeze tl else a :: squeeze tl
      end
  end.

(** [np.unique(ptcloud, axis=0)]: the distinct rows, sorted. *)
Definition unique_axis0 (rows : list coord) : list coord :=
  squeeze (merge_sort coord_le rows).

Definition get_point_cloud (C : Collaborators) (segid : Z) (frags : list string)
    : list coord :=
  let ptcloud :=
    foldl (λ ptcloud frag,
             let bbox := from_filename C frag in
             let img := read_volume C bbox in
             ptcloud ++ argwhere img segid) [] frags in
  match ptcloud with
  | [] => ptcloud
  | _ :: _ => unique_axis0 (sort_axis0 ptcloud)
  end.

(** [get_filenames_subset]: the listed files grouped by the segment id
    the pattern finds in their name, in order of first appearance. *)
Fixpoint group_add (segid : Z) (filename : string)
    (d : list (Z * list string)) : list (Z * list string) :=
  match d with
  | [] => [(segid, [filename])]
  | (k, names) :: d' =>
      if decide (segid = k) then (k, names ++ [filename]) :: d'
      else (k, names) :: group_add segid filename d'
  end.

Definition get_filenames_subset (C : Collaborators) (listing : list string)
    : list (Z * list string) :=
  foldl (λ skeletons filename,
           match segid_search C filename with
           | None => skeletons
           | Some segid => group_add segid filename skeletons
           end) [] listing.

(** One turn of the first loop of [agglomerate], up to the upload. *)
Definition merge_one (C : Collaborators) (segid : Z) (frags : list string)
    : result Skeleton :=
  let ptcloud := get_point_cloud C segid frags in
  skeleton ←r fuse_skeletons C frags;
  Ok (trim_skeleton C skeleton ptcloud).

(** The first loop of [agglomerate]: the operations issued, and the
    exception that ended it if one did. *)
Fixpoint merge_all (C : Collaborators) (skels : list (Z * list string))
    : list event * option exn :=
  match skels with
  | [] => ([], None)
  | (segid, frags) :: rest =>
      match merge_one C segid frags with
      | Raise e => ([], Some e)
      | Ok skeleton =>
          let r := merge_all C rest in
          (Upload segid skeleton :: PutJson segid (basename C <$> frags) :: r.1, r.2)
      end
  end.

Definition agglomerate_on (C : Collaborators) (skels : list (Z * list string))
    : list event * option exn :=
  match merge_all C skels with
  | (log, Some e) => (log, Some e)
  | (log, None) => (log ++ Wait :: (DeleteFiles <$> skels.*2), None)
  end.

Definition agglomerate (C : Collaborators) (listing : list string)
    : list event * option exn :=
  agglomerate_on C (get_filenames_subset C listing).

(** A skeleton the fusing loop does not skip. *)
Definition has_edges (s : Skeleton) : Prop := edges s ≠ [].

(** The files of the listing in which the pattern finds the id [segid],
    and those in which it finds an id at all. *)
Definition files_of (C : Collaborators) (segid : Z) (listing : list string)
    : list string :=
  filter (λ f, segid_search C f = Some segid) listing.

Definition matched (C : Collaborators) (listing : list string) : list string :=
  filter (λ f, is_Some (segid_search C f)) listing.

(** What the grouping loop has built once it has read [listing]: one
    group per id, holding the files of that id. *)
Record grouped (C : Collaborators) (listing : list string)
    (d : list (Z * list string)) : Prop := {
  grouped_keys : NoDup d.*1;
  grouped_mem : ∀ k names, (k, names) ∈ d ↔
                  names = files_of C k listing ∧ names ≠ []
}.

(** The voxels [argwhere] finds in the cutouts of the fragments, before
    sorting. *)
Definition found (C : Collaborators) (segid : Z) (frags : list string)
    : list coord :=
  mjoin ((λ frag, argwhere (read_volume C (from_filename C frag)) segid) <$> frags).

(** The file names a log deletes, in order. *)
Definition deleted (log : list event) : list string :=
  mjoin (omap (λ ev, match ev with DeleteFiles names => Some names | _ => None end) log).

(** The object ids a log uploads, in order. *)
Definition uploaded (log : list event) : list Z :=
  omap (λ ev, match ev with Upload segid _ => Some segid | _ => None end) log.

(** An event of the first loop: an upload or a metadata write. *)
Definition is_write (ev : event) : bool :=
  match ev with
  | Upload _ _ | PutJson _ _ => true
  | _ => false
  end.

(** Sample fragments, files and collaborators.  Object 1 has two
    fragments in boxes that do not meet; object 2 has one fragment;
    object 3 has a fragment the store returns no content for; object 7
    fills one diagonal of a 2 x 2 x 1 cutout. *)
Definition pos (x y z : Z) : position := (inject_Z x, inject_Z y, inject_Z z).

Definition frag_a : Skeleton :=
  MkSkeleton [pos 0 0 0; pos 1 0 0] [(0, 1)] [Fin 1; Fin 1].

Definition frag_b : Skeleton :=
  MkSkeleton [pos 5 0 0; pos 6 0 0] [(0, 1)] [Fin 1; Fin 1].

Definition file_a : string := "1:skel:0-2_0-1_0-1".
Definition file_b : string := "1:skel:5-7_0-1_0-1".
Definition file_c : string := "2:skel:0-2_0-1_0-1".
Definition file_gone : string := "3:skel:0-2_0-1_0-1".
Definition file_diag : string := "7:skel:0-2_0-2_0-1".

Definition diag_img : image := [[[0]; [7]]; [[7]; [0]]].

Definition demo_store (name : string) : option Skeleton :=
  if decide (name = file_a) then Some frag_a
  else if decide (name = file_b) then Some frag_b
  else if decide (name = file_c) then Some frag_a
  else None.

Definition demo : Collaborators :=
  MkCollaborators
    (λ name, if decide (name = file_b) then MkBbox (5, 0, 0) (7, 1, 1)
             else if decide (name = file_diag) then MkBbox (0, 0, 0) (2, 2, 1)
             else MkBbox (0, 0, 0) (2, 1, 1))
    (λ name, if String.prefix "1:skel:" name then Some 1
             else if String.prefix "2:skel:" name then Some 2
             else if String.prefix "3:skel:" name then Some 3
             else if String.prefix "7:skel:" name then Some 7
             else None)
    id
    (λ bbox, if decide (bbox = MkBbox (0, 0, 0) (2, 2, 1)) then diag_img
             else [[[1]]; [[1]]])
    (λ names, (λ name, (name, demo_store name)) <$> names)
    (λ a b, (a, b))
    id
    (λ s _, s).

End SkeletonMergeTask.

(** ** TEASAR (skeletonization.py, lines 21-91) *)
Module Teasar.
Import PathUnion.

(** [x == 0] on a float. *)
Definition is_zero (x : fval) : bool :=
  match x with
  | Fin q => Qeq_bool q 0
  | PInf => false
  end.

(** [x > y] *)
Definition fval_gt (x y : fval) : bool :=
  match x, y with
  | Fin a, Fin b => negb (Qle_bool a b)
  | PInf, Fin _ => true
  | _, PInf => false
  end.

(** [x <= y], stated with the comparison the code uses. *)
Definition fval_le (x y : fval) : Prop := fval_gt x y = false.

Definition fval_max (x y : fval) : fval := if fval_gt y x then y else x.

Definition fval_add (x y : fval) : fval :=
  match x, y with
  | Fin a, Fin b => Fin (a + b)
  | _, _ => PInf
  end.

(** [np.max(DBF)], a [ValueError] on an array without entries. *)
Definition np_max (DBF : gmap coord fval) : result fval :=
  match (map_to_list DBF).*2 with
  | [] => Raise ValueError
  | x :: xs => Ok (foldl fval_max x xs)
  end.

(** [labels = (DBF != 0)], as the set of voxels that hold [True]. *)
Definition foreground (DBF : gmap coord fval) : gset coord :=
  dom (filter (λ kv, is_zero kv.2 = false) DBF).

(** [DBF[DBF == 0] = np.inf] *)
Definition zero_to_inf (x : fval) : fval := if is_zero x then PInf else x.

(** The boolean array [labels] as the solver reads it. *)
Definition indicator (DBF : gmap coord fval) (labels : gset coord)
    : gmap coord fval :=
  map_imap (λ v _, Some (if decide (v ∈ labels) then Fin 1 else Fin 0)) DBF.

(** What [igneous.dijkstra] and [igneous.skeletontricks] provide, and the
    real power [dbf_max ** 1.01]. *)
Record Solver : Type := MkSolver {
  first_label : gset coord → option coord;
  distance_field : gmap coord fval → coord → gmap coord fval;
  find_target : gset coord → gmap coord fval → coord;
  dijkstra : gmap coord fval → coord → coord → list coord;
  rpow : Q → Q → Q
}.

(** [5000 * ((1 - (DBF * M)) ** 16)] at one voxel; [DBF] is [+inf] on the
    background, where the sixteenth power is [+inf] too. *)
Definition penalty (M : Q) (dbf : fval) : fval :=
  match dbf with
  | Fin d => Fin (5000 * (1 - d * M) ^ 16)
  | PInf => PInf
  end.

Definition penalized (M : Q) (DAF DBF : gmap coord fval) : gmap coord fval :=
  map_zip_with (λ daf dbf, fval_add daf (penalty M dbf)) DAF DBF.

Definition dist2 (v u : coord) : Z :=
  let '(x, y, z) := v in
  let '(x', y', z') := u in
  (x - x') * (x - x') + (y - y') * (y - y') + (z - z') * (z - z').

(** [u] lies within [scale * DBF(v) + const] of the path vertex [v]. *)
Definition in_ball (DBF : gmap coord fval) (scale const : Q) (v u : coord) : bool :=
  match DBF !! v with
  | Some (Fin d) =>
      let r := (scale * d + const)%Q in
      Qle_bool 0 r && Qle_bool (inject_Z (dist2 v u)) (r * r)
  | Some PInf => negb (Qle_bool scale 0)
  | None => false
  end.

Definition hit (DBF : gmap coord fval) (scale const : Q)
    (path : list coord) (u : coord) : Prop :=
  Exists (λ v, in_ball DBF scale const v u = true) path.

(** Modelled from the spec: [igneous.skeletontricks.roll_invalidation_ball],
    which is not among the sources.  For every vertex [v] on the path it
    marks as background all foreground voxels within radius
    [scale * DBF(v) + const] of [v]; it returns how many voxels it
    invalidated and the new mask. *)
Definition roll_invalidation_ball (labels : gset coord) (DBF : gmap coord fval)
    (path : list coord) (scale const : Q) : Z * gset coord :=
  let gone := filter (hit DBF scale const path) labels in
  (Z.of_nat (size gone), labels ∖ gone).

(** The loop of lines 76-83 from the state [(labels, valid_labels, paths)];
    [None] when it is still running after [fuel] turns. *)
Fixpoint extract (S : Solver) (PDRF DBF : gmap coord fval) (root : coord)
    (scale const : Q) (fuel : nat)
    (labels : gset coord) (valid_labels : Z) (paths : list (list coord))
    : option (gset coord * list (list coord)) :=
  if decide (valid_labels > 0) then
    match fuel with
    | O => None
    | Datatypes.S fuel' =>
        let target := find_target S labels PDRF in
        let path := dijkstra S PDRF root target in
        let r := roll_invalidation_ball labels DBF path scale const in
        extract S PDRF DBF root scale const fuel' r.2 (valid_labels - r.1)
                (paths ++ [path])
    end
  else Some (labels, paths).

(** A path the loop can append: the solver's path from the root to the
    solver's target for a non-empty part of the mask. *)
Definition solver_path (S : Solver) (PDRF : gmap coord fval) (root : coord)
    (labels : gset coord) (path : list coord) : Prop :=
  ∃ labels', labels' ⊆ labels ∧ labels' ≠ ∅ ∧
             path = dijkstra S PDRF root (find_target S labels' PDRF).

(** The mask [labels] as the loop holds it after the turns that emitted
    [paths]: line 80 has replaced it once for each of them. *)
Definition mask_after (DBF : gmap coord fval) (scale const : Q)
    (labels : gset coord) (paths : list (list coord)) : gset coord :=
  foldl (λ mask path, (roll_invalidation_ball mask DBF path scale const).2)
        labels paths.

(** [DBF[skel_verts[::3], skel_verts[1::3], skel_verts[2::3]]] *)
Fixpoint sample (DBF : gmap coord fval) (vs : list coord) : result (list fval) :=
  match vs with
  | [] => Ok []
  | v :: vs' =>
      match DBF !! v with
      | None => Raise IndexError
      | Some x => rest ←r sample DBF vs'; Ok (x :: rest)
      end
  end.

Definition to_position (v : coord) : position :=
  let '(x, y, z) := v in (inject_Z x, inject_Z y, inject_Z z).

(** Lines 85-91. *)
Definition assemble (DBF : gmap coord fval) (depth : nat)
    (paths : list (list coord)) : result Skeleton :=
  r ←r path_union depth paths;
  let skel_verts := rows3 r.1 in
  skel_radii ←r sample DBF skel_verts;
  Ok (MkSkeleton (to_position <$> skel_verts) (rows2 r.2) skel_radii).

(** [TEASAR]: the array [DBF] as the call leaves it, and what the call
    returns ([None] when the extraction loop is still running after [fuel]
    turns).  [max_boundary_distance] is a finite float, as the default
    5000 is; with [+inf] for it the guard of line 47 never holds. *)
Definition TEASAR (S : Solver) (fuel depth : nat)
    (DBF : gmap coord fval) (scale const : Q) (max_boundary_distance : Q)
    : gmap coord fval * option (result Skeleton) :=
  let labels := foreground DBF in
  let any_voxel := first_label S labels in
  match np_max DBF with
  | Raise e => (DBF, Some (Raise e))
  | Ok dbf_max =>
      match any_voxel with
      | None => (DBF, Some (Ok Skeleton_new))
      | Some any_voxel =>
          if fval_gt dbf_max (Fin max_boundary_distance)
          then (DBF, Some (Ok Skeleton_new))
          else
            let M := match dbf_max with
                     | Fin m => (1 / rpow S m 1.01)%Q
                     | PInf => 0%Q
                     end in
            let DBF := zero_to_inf <$> DBF in
            let DAF := distance_field S (indicator DBF labels) any_voxel in
            let root := find_target S labels DAF in
            let DAF := distance_field S DBF root in
            let PDRF := penalized M DAF DBF in
            let valid_labels := Z.of_nat (size labels) in
            (DBF,
             match extract S PDRF DBF root scale const fuel labels valid_labels [] with
             | None => None
             | Some (_, paths) => Some (assemble DBF depth paths)
             end)
      end
  end.

(** A plain solver to run the definitions on: the first voxel of the
    mask as seed and target, the straight path from root to target. *)
Definition plain_solver : Solver :=
  MkSolver (λ labels, head (elements labels))
           (λ weights _, weights)
           (λ labels _, default (0, 0, 0) (head (elements labels)))
           (λ _ root target, if decide (root = target) then [root] else [root; target])
           (λ x _, x).

Definition grid (l : list (coord * Q)) : gmap coord fval :=
  list_to_map (prod_map id Fin <$> l).

(** Sample arrays: a row of three foreground voxels after one background
    voxel, and a two-voxel array whose maximum exceeds the threshold. *)
Definition row4 : gmap coord fval :=
  grid [((0, 0, 0), 0%Q); ((1, 0, 0), 1%Q); ((2, 0, 0), 1%Q); ((3, 0, 0), 1%Q)].

Definition blob2 : gmap coord fval :=
  grid [((0, 0, 0), 0%Q); ((1, 0, 0), 6000%Q)].

(** The effect on [DBF] as the claim words it: after the call every entry
    that was zero holds [+inf] and every other entry is unchanged. *)
Definition zeros_become_inf (before after : gmap coord fval) : Prop :=
  ∀ v x, before !! v = Some x → after !! v = Some (zero_to_inf x).

End Teasar.

(** ** SkeletonTask (tasks.py, lines 42-161) *)
Module SkeletonTask.

(** [labels = (all_labels == segid)], as the set of voxels that hold [True]. *)
Definition select (all_labels : gmap coord Z) (segid : Z) : gset coord :=
  dom (filter (λ kv, kv.2 = segid) all_labels).

(** The label [scipy.ndimage.measurements.label] gives a voxel, the
    components being listed in label order [1..N]; zero on the background. *)
Fixpoint label_of (comps : list (gset coord)) (k : nat) (v : coord) : nat :=
  match comps with
  | [] => 0%nat
  | c :: cs => if decide (v ∈ c) then k else label_of cs (S k) v
  end.

(** [labels.astype(np.uint8)] *)
Definition label_u8 (comps : list (gset coord)) (v : coord) : Z :=
  Z.of_nat (label_of comps 1 v) mod 256.

(** [component = (labels == i)] *)
Definition component (comps : list (gset coord)) (i : nat) : gset coord :=
  filter (λ v, label_u8 comps v = Z.of_nat i) (⋃ comps).

Definition grow (b : Bbox) (v : coord) : Bbox :=
  let '(x, y, z) := v in
  let '(x0, y0, z0) := minpt b in
  let '(x1, y1, z1) := maxpt b in
  MkBbox (x0 `min` x, y0 `min` y, z0 `min` z)
         (x1 `max` (x + 1), y1 `max` (y + 1), z1 `max` (z + 1)).

(** [Bbox.from_slices(scipy.ndimage.find_objects(component)[0])]: the box
    around the voxels of the mask; the list [find_objects] returns is
    empty when the mask is. *)
Definition find_objects (s : gset coord) : result Bbox :=
  match elements s with
  | [] => Raise IndexError
  | v :: vs => Ok (foldl grow (MkBbox v (coord_add v (1, 1, 1))) vs)
  end.

(** The voxel [v] lies in the box [b]. *)
Definition inside (b : Bbox) (v : coord) : Prop :=
  let '(x, y, z) := v in
  let '(x0, y0, z0) := minpt b in
  let '(x1, y1, z1) := maxpt b in
  (x0 ≤ x < x1) ∧ (y0 ≤ y < y1) ∧ (z0 ≤ z < z1).

Definition box_coords (b : Bbox) : list coord :=
  let '(x0, y0, z0) := minpt b in
  let '(x1, y1, z1) := maxpt b in
  x ← seqZ x0 (x1 - x0); y ← seqZ y0 (y1 - y0); z ← seqZ z0 (z1 - z0);
  [(x, y, z)].

Definition coord_sub (a b : coord) : coord :=
  let '(x, y, z) := a in
  let '(dx, dy, dz) := b in
  (x - dx, y - dy, z - dz).

(** [dbf = component[slices] * all_dbf[slices]], indexed from the corner
    of the box. *)
Definition crop (comp : gset coord) (all_dbf : gmap coord Q) (roi : Bbox)
    : gmap coord fval :=
  list_to_map
    ((λ v, (coord_sub v (minpt roi),
            Fin (if decide (v ∈ comp) then default 0%Q (all_dbf !! v) else 0%Q)))
       <$> box_coords roi).

(** The generator [components] run to its end over the labels [ks]: what
    it yields, and the exception that ends it if one does. *)
Fixpoint components_from (comps : list (gset coord)) (all_dbf : gmap coord Q)
    (bbox : Bbox) (ks : list nat)
    : list (gmap coord fval * Bbox) * option exn :=
  match ks with
  | [] => ([], None)
  | i :: ks' =>
      match find_objects (component comps i) with
      | Raise e => ([], Some e)
      | Ok roi =>
          if decide (Bbox_volume roi ≤ 1)
          then components_from comps all_dbf bbox ks'
          else
            let r := components_from comps all_dbf bbox ks' in
            ((crop (component comps i) all_dbf roi,
              Bbox_translate roi (minpt bbox)) :: r.1, r.2)
      end
  end.

(** [components]; [label] is [scipy.ndimage.measurements.label], giving
    the components of the mask in label order, and the loop is over
    [range(1, N)]. *)
Definition components (label : gset coord → list (gset coord))
    (segid : Z) (all_labels : gmap coord Z) (all_dbf : gmap coord Q)
    (bbox : Bbox) : list (gmap coord fval * Bbox) * option exn :=
  let comps := label (select all_labels segid) in
  let N := length comps in
  components_from comps all_dbf bbox (seq 1 (N - 1)).

(** [skeletonize], line 147: [TEASAR] has three positional parameters
    without default and is called with two, so the call raises
    [TypeError] before [TEASAR] runs; lines 149-161 are not reached. *)
Definition skeletonize (dbf : gmap coord fval) (bbox : Bbox) : result Skeleton :=
  Raise TypeError.

(** The loop of lines 101-105: its first statement passes the second
    array where [np.concatenate] takes the axis. *)
Definition concat_rest (skeleton : Skeleton) (num_vertices : Z)
    (rest : list Skeleton) : result Skeleton :=
  match rest with
  | [] => Ok skeleton
  | _ :: _ => Raise TypeError
  end.

(** [skeleton.nodes[:] *= vol.resolution] *)
Definition scale_nodes (res : position) (s : Skeleton) : Skeleton :=
  let '(rx, ry, rz) := res in
  MkSkeleton ((λ p : position, let '(x, y, z) := p in (x * rx, y * ry, z * rz)%Q)
                <$> nodes s)
             (edges s) (radii s).

(** [process_label]: the operations it issues on the stores and how it
    ends.  [skel] is the method [self.skeletonize]; [vol_resolution] is
    what the name [vol] of lines 115-118 resolves to, [None] when it is
    not bound, as in the module as it stands. *)
Definition process_label (label : gset coord → list (gset coord))
    (skel : gmap coord fval → Bbox → result Skeleton)
    (vol_resolution : option position)
    (segid : Z) (remap : gmap Z Z) (all_labels : gmap coord Z)
    (all_dbf : gmap coord Q) (bbox : Bbox) : list event * result () :=
  match remap !! segid with
  | None => ([], Raise KeyError)
  | Some real =>
      if decide (real = 0) then ([], Ok ())
      else
        let first_turn : result (list Skeleton) :=
          match components label segid all_labels all_dbf bbox with
          | ([], None) => Ok []
          | ([], Some e) => Raise e
          | ((dbf, roi) :: _, _) =>
              skeleton ←r skel dbf roi;
              Ok (if empty skeleton then [] else [skeleton])
          end in
        match first_turn with
        | Raise e => ([], Raise e)
        | Ok [] => ([], Ok ())
        | Ok (skeleton :: rest) =>
            let num_vertices := Z.of_nat (length (nodes skeleton)) in
            match concat_rest skeleton num_vertices rest with
            | Raise e => ([], Raise e)
            | Ok skeleton =>
                match vol_resolution with
                | None => ([], Raise NameError)
                | Some res =>
                    let skeleton := scale_nodes res skeleton in
                    ([Upload real skeleton], Ok ())
                end
            end
        end
  end.

(** Sample inputs: a chunk in which object 7 is one component of two
    voxels, and one in which it is two components of two voxels each. *)
Definition one_blob : gmap coord Z :=
  list_to_map [((0, 0, 0), 7); ((1, 0, 0), 7); ((2, 0, 0), 0); ((3, 0, 0), 0)].

Definition two_blobs : gmap coord Z :=
  list_to_map [((0, 0, 0), 7); ((1, 0, 0), 7); ((2, 0, 0), 0);
               ((3, 0, 0), 7); ((4, 0, 0), 7)].

Definition flat_dbf : gmap coord Q :=
  list_to_map [((0, 0, 0), 1%Q); ((1, 0, 0), 1%Q); ((2, 0, 0), 0%Q);
               ((3, 0, 0), 1%Q); ((4, 0, 0), 1%Q)].

Definition chunk : Bbox := MkBbox (0, 0, 0) (5, 1, 1).

(** Labelling along the x axis: a component is a maximal run of
    neighbouring voxels (these masks lie on one line). *)
Definition label_runs (mask : gset coord) : list (gset coord) :=
  foldr (λ v acc,
           match acc with
           | c :: cs =>
               if decide (coord_add v (1, 0, 0) ∈ c) then ({[v]} ∪ c) :: cs
               else {[v]} :: acc
           | [] => [{[v]}]
           end) [] (merge_sort SkeletonMergeTask.coord_le (elements mask)).

(** A stand-in for a working [skeletonize]: one vertex per voxel of the
    cutout, no edge. *)
Definition skeletonize_stub (dbf : gmap coord fval) (bbox : Bbox)
    : result Skeleton :=
  Ok (MkSkeleton ((λ kv, Teasar.to_position (coord_add kv.1 (minpt bbox)))
                    <$> map_to_list dbf) [] (snd <$> map_to_list dbf)).

Definition remap7 : gmap Z Z := {[ 7 := 28823174 ]}.

End SkeletonTask.

(** * Properties of path_union *)
Module PathUnionFacts.
Import PathUnion.

Lemma register_foldl (paths : list (list coord)) (st : reg_state) :
  foldl register_path st paths = foldl register_pair st (all_pairs paths).
Proof.
  revert st. induction paths as [|p ps IH]; intros st; [done|].
  unfold all_pairs. cbn. rewrite foldl_app. apply IH.
Qed.

Lemma elem_of_consecutive (path : list coord) (p c : coord) :
  (p, c) ∈ consecutive path ↔
  ∃ i : nat, path !! i = Some p ∧ path !! S i = Some c.
Proof.
  induction path as [|a [|b tl] IH].
  - cbn. split; [by intros ?%elem_of_nil | by intros (i & ? & ?)].
  - cbn. split; [by intros ?%elem_of_nil | by intros ([|i] & ? & ?)].
  - change (consecutive (a :: b :: tl)) with ((a, b) :: consecutive (b :: tl)).
    rewrite elem_of_cons, IH. split.
    + intros [[= -> ->] | (i & Hi & HSi)]; [by exists 0%nat | by exists (S i)].
    + intros ([|i] & Hi & HSi).
      * left. cbn in Hi, HSi. congruence.
      * right. by exists i.
Qed.

Lemma elem_of_all_pairs (paths : list (list coord)) (p c : coord) :
  (p, c) ∈ all_pairs paths ↔
  ∃ path (i : nat), path ∈ paths ∧ path !! i = Some p ∧ path !! S i = Some c.
Proof.
  unfold all_pairs. rewrite list_elem_of_join. split.
  - intros (l & Hin & Hl). apply list_elem_of_fmap in Hl as (path & -> & Hp).
    apply elem_of_consecutive in Hin as (i & ? & ?). by exists path, i.
  - intros (path & i & Hp & Hi & HSi). exists (consecutive path). split.
    + apply elem_of_consecutive. by exists i.
    + apply list_elem_of_fmap. by exists path.
Qed.

Lemma reg_inv_init : reg_inv [] reg_init.
Proof.
  split; cbn.
  - intros p c. unfold children. rewrite lookup_empty. cbn.
    split; [by intros ?%not_elem_of_empty | by intros ?%elem_of_nil].
  - intros v i. by rewrite lookup_empty.
  - done.
  - intros v. split; [by intros ?%elem_of_nil|].
    by intros (q & [?%elem_of_nil | ?%elem_of_nil]).
Qed.

Lemma reg_inv_NoDup ps st : reg_inv ps st → NoDup (vertices st).
Proof.
  intros Hinv. apply NoDup_alt. intros i j v Hi Hj.
  apply (inv_ids _ _ Hinv) in Hi, Hj. congruence.
Qed.

(** The effect of [assign_id] on the id table and the vertex list. *)
Lemma assign_id_spec (v : coord) (st : reg_state) :
  (∀ w (i : nat), tree_id st !! w = Some i ↔ vertices st !! i = Some w) →
  ct st = length (vertices st) →
  tree (assign_id v st) = tree st ∧
  (∀ w (i : nat), tree_id (assign_id v st) !! w = Some i ↔
                  vertices (assign_id v st) !! i = Some w) ∧
  ct (assign_id v st) = length (vertices (assign_id v st)) ∧
  (∀ w, w ∈ vertices (assign_id v st) ↔ w = v ∨ w ∈ vertices st).
Proof.
  intros Hids Hct. unfold assign_id.
  destruct (tree_id st !! v) as [i|] eqn:Hv.
  - repeat split; try done; [apply Hids | apply Hids | |].
    + intros Hw. by right.
    + intros [-> | ?]; [|done].
      apply Hids in Hv. by eapply list_elem_of_lookup_2.
  - cbn. repeat split.
    + intros Hw. destruct (decide (v = w)) as [-> | Hne].
      * rewrite lookup_insert_eq in Hw. injection Hw as <-.
        rewrite Hct. by rewrite list_lookup_middle.
      * rewrite lookup_insert_ne in Hw by done.
        apply Hids in Hw. by apply lookup_app_l_Some.
    + intros Hw. apply lookup_snoc_Some in Hw as [[Hlt Hw] | [Hlen <-]].
      * destruct (decide (v = w)) as [-> | Hne].
        { apply Hids in Hw. congruence. }
        rewrite lookup_insert_ne by done. by apply Hids.
      * rewrite Hct, Hlen. by rewrite lookup_insert_eq.
    + rewrite length_app. cbn. lia.
    + rewrite elem_of_app, list_elem_of_singleton. tauto.
    + rewrite elem_of_app, list_elem_of_singleton. tauto.
Qed.

Lemma children_touch (c p : coord) (st : reg_state) :
  children (tree (touch c st)) p = children (tree st) p.
Proof.
  unfold touch. destruct (tree st !! c) eqn:Hc; [done|]. cbn.
  unfold children. destruct (decide (c = p)) as [-> | Hne].
  - by rewrite lookup_insert_eq, Hc.
  - by rewrite lookup_insert_ne.
Qed.

Lemma children_add_child (parent child p : coord) (st : reg_state) (x : coord) :
  x ∈ children (tree (add_child parent child st)) p ↔
  x ∈ children (tree st) p ∨ (p = parent ∧ x = child).
Proof.
  unfold add_child. cbn. unfold children at 1.
  destruct (decide (parent = p)) as [-> | Hne].
  - rewrite lookup_insert_eq. cbn. rewrite elem_of_union, elem_of_singleton. tauto.
  - rewrite lookup_insert_ne by done. fold (children (tree st) p).
    split; [by left | by intros [? | [-> _]]].
Qed.

Lemma register_pair_inv ps st (p c : coord) :
  reg_inv ps st → reg_inv (ps ++ [(p, c)]) (register_pair st (p, c)).
Proof.
  intros [Hadj Hids Hct Hmem]. unfold register_pair.
  set (s1 := add_child p c st).
  destruct (assign_id_spec p s1) as (Ht2 & Hids2 & Hct2 & Hmem2); [done..|].
  set (s2 := assign_id p s1) in *.
  set (s3 := touch c s2).
  assert (Hs3 : tree_id s3 = tree_id s2 ∧ vertices s3 = vertices s2 ∧ ct s3 = ct s2).
  { unfold s3, touch. by destruct (tree s2 !! c). }
  destruct Hs3 as (Hi3 & Hv3 & Hc3).
  destruct (assign_id_spec c s3) as (Ht4 & Hids4 & Hct4 & Hmem4).
  { by rewrite Hi3, Hv3. } { by rewrite Hc3, Hv3. }
  split; [| done | done |].
  - intros a b. rewrite Ht4. unfold s3. rewrite children_touch, Ht2.
    unfold s1. rewrite children_add_child, Hadj.
    rewrite elem_of_app, list_elem_of_singleton.
    split; [intros [? | [-> ->]]; [by left | by right] |].
    intros [? | [= -> ->]]; [by left | by right].
  - intros v. rewrite Hmem4, Hv3, Hmem2. cbn. rewrite Hmem.
    setoid_rewrite elem_of_app. setoid_rewrite list_elem_of_singleton.
    split.
    + intros [-> | [-> | (q & [Hq | Hq])]].
      * exists p. right; by right.
      * exists c. left; by right.
      * exists q. left; by left.
      * exists q. right; by left.
    + intros (q & [[Hq | [= -> ->]] | [Hq | [= -> ->]]]).
      * right; right. exists q. by left.
      * right; by left.
      * right; right. exists q. by right.
      * by left.
Qed.

Lemma foldl_register_pair_inv ps0 st ps :
  reg_inv ps0 st → reg_inv (ps0 ++ ps) (foldl register_pair st ps).
Proof.
  revert ps0 st. induction ps as [|[p c] ps IH]; intros ps0 st Hinv.
  - by rewrite app_nil_r.
  - cbn [foldl]. replace (ps0 ++ (p, c) :: ps) with ((ps0 ++ [(p, c)]) ++ ps)
      by (by rewrite <- app_assoc).
    apply IH. by apply register_pair_inv.
Qed.

Lemma register_inv (paths : list (list coord)) :
  reg_inv (all_pairs paths) (register paths).
Proof.
  unfold register. rewrite register_foldl.
  apply (foldl_register_pair_inv [] reg_init), reg_inv_init.
Qed.


(** ** The traversal, on coordinates *)
Section Traversal.
Variable t : gmap coord (gset coord).

Lemma steps_cons (p c y : coord) (n : nat) :
  c ∈ children t p → steps t c n y → steps t p (S n) y.
Proof.
  intros Hpc Hs. induction Hs as [|n x y Hs IH Hxy].
  - eapply steps_S; [apply steps_O | done].
  - eapply steps_S; [apply IH | done].
Qed.

Lemma each_edge_cons_inv recur (p c : coord) cs ces :
  each_edge recur p (c :: cs) = Some ces →
  ∃ below rest, recur c = Some below ∧ each_edge recur p cs = Some rest ∧
                ces = (p, c) :: below ++ rest.
Proof.
  cbn. intros H. destruct (recur c) as [b|]; [|done]. cbn in H.
  destruct (each_edge recur p cs) as [r|]; [|done]. cbn in H.
  injection H as <-. eauto.
Qed.

Lemma each_edge_Some recur (p : coord) cs :
  (∀ c, c ∈ cs → is_Some (recur c)) → is_Some (each_edge recur p cs).
Proof.
  induction cs as [|c cs IH]; intros H; cbn; [eauto|].
  destruct (H c) as [b Hb]; [left|]. rewrite Hb. cbn.
  destruct IH as [r Hr]; [intros; apply H; by right|]. rewrite Hr. cbn. eauto.
Qed.

Lemma each_edge_recur recur (p : coord) cs ces c :
  each_edge recur p cs = Some ces → c ∈ cs → is_Some (recur c).
Proof.
  revert ces. induction cs as [|c0 cs IH]; intros ces H Hc.
  - by apply elem_of_nil in Hc.
  - apply each_edge_cons_inv in H as (below & rest & Hb & Hr & ->).
    apply elem_of_cons in Hc as [-> | Hc]; [eauto | by eapply IH].
Qed.

Lemma elem_of_each_edge recur (p : coord) cs ces e :
  each_edge recur p cs = Some ces →
  e ∈ ces ↔
  ∃ c, c ∈ cs ∧ (e = (p, c) ∨ ∃ below, recur c = Some below ∧ e ∈ below).
Proof.
  revert ces. induction cs as [|c0 cs IH]; intros ces H.
  - cbn in H. injection H as <-. split; [by intros ?%elem_of_nil|].
    by intros (c & ?%elem_of_nil & _).
  - apply each_edge_cons_inv in H as (below & rest & Hb & Hr & ->).
    rewrite elem_of_cons, elem_of_app, (IH _ Hr). split.
    + intros [-> | [He | (c & Hc & He)]].
      * exists c0. split; [left | by left].
      * exists c0. split; [left | right; eauto].
      * exists c. split; [by right | done].
    + intros (c & [-> | Hc]%elem_of_cons & He).
      * destruct He as [-> | (b & Hb' & He)]; [by left|].
        right; left. congruence.
      * right; right. eauto.
Qed.

Lemma elem_of_walk_edges (depth : nat) (p : coord) ces e :
  walk_edges t (S depth) p = Some ces →
  e ∈ ces ↔
  ∃ c, c ∈ children t p ∧
       (e = (p, c) ∨ ∃ below, walk_edges t depth c = Some below ∧ e ∈ below).
Proof.
  cbn [walk_edges]. intros H. rewrite (elem_of_each_edge _ _ _ _ _ H).
  by setoid_rewrite elem_of_elements.
Qed.

Lemma walk_edges_child (depth : nat) (p c : coord) ces :
  walk_edges t (S depth) p = Some ces → c ∈ children t p →
  is_Some (walk_edges t depth c).
Proof.
  cbn [walk_edges]. intros H Hc. eapply each_edge_recur; [done|].
  by apply elem_of_elements.
Qed.

(** The traversal finishes within [depth] nested calls exactly when no
    chain of [depth] links starts at the vertex it is called on. *)
Lemma walk_edges_total (depth : nat) (p : coord) :
  (∀ y, ¬ steps t p depth y) → is_Some (walk_edges t depth p).
Proof.
  revert p. induction depth as [|d IH]; intros p Hno.
  - destruct (Hno p). constructor.
  - cbn. apply each_edge_Some. intros c Hc%elem_of_elements.
    apply IH. intros y Hy. apply (Hno y). by eapply steps_cons.
Qed.

Lemma walk_edges_sound (depth : nat) (p : coord) ces (x y : coord) :
  walk_edges t depth p = Some ces → (x, y) ∈ ces →
  y ∈ children t x ∧ ∃ n, steps t p n x.
Proof.
  revert p ces. induction depth as [|d IH]; intros p ces H Hin; [done|].
  apply (elem_of_walk_edges _ _ _ _ H) in Hin as (c & Hc & [[= -> ->] | (b & Hb & Hin)]).
  - split; [done|]. exists 0%nat. constructor.
  - destruct (IH _ _ Hb Hin) as (Hxy & n & Hn). split; [done|].
    exists (S n). by eapply steps_cons.
Qed.

Lemma walk_edges_below (depth : nat) (p : coord) ces (x y : coord) :
  walk_edges t depth p = Some ces → (x, y) ∈ ces → ∃ n, steps t p (S n) y.
Proof.
  intros H Hin. destruct (walk_edges_sound _ _ _ _ _ H Hin) as (Hxy & n & Hn).
  exists n. by eapply steps_S.
Qed.

(** Every link out of the start vertex is emitted, and so is every
    link out of a vertex an emitted edge arrives at. *)
Lemma walk_edges_closed (depth : nat) (p : coord) ces :
  walk_edges t depth p = Some ces →
  (∀ c, c ∈ children t p → (p, c) ∈ ces) ∧
  (∀ x y c, (x, y) ∈ ces → c ∈ children t y → (y, c) ∈ ces).
Proof.
  revert p ces. induction depth as [|d IH]; intros p ces H; [done|]. split.
  - intros c Hc. apply (elem_of_walk_edges _ _ _ _ H). exists c. eauto.
  - intros x y c Hin Hyc.
    apply (elem_of_walk_edges _ _ _ _ H) in Hin as (c0 & Hc0 & [[= -> ->] | (b & Hb & Hin)]).
    + destruct (walk_edges_child _ _ _ _ H Hc0) as [b Hb].
      apply (elem_of_walk_edges _ _ _ _ H). exists c0. split; [done|]. right.
      exists b. split; [done|]. by apply (IH _ _ Hb).
    + apply (elem_of_walk_edges _ _ _ _ H). exists c0. split; [done|]. right.
      exists b. split; [done|]. by eapply (IH _ _ Hb).
Qed.

End Traversal.


(** ** No vertex is entered twice when each has one parent and a level *)
Section Levels.
Variable t : gmap coord (gset coord).
Variable lvl : coord → nat → Prop.
Hypothesis lvl_fun : ∀ c (i j : nat), lvl c i → lvl c j → i = j.
Hypothesis lvl_step : ∀ p c (i : nat), lvl p i → c ∈ children t p → lvl c (S i).
Hypothesis parent_uniq :
  ∀ p1 p2 c, c ∈ children t p1 → c ∈ children t p2 → p1 = p2.

Lemma lvl_steps (p y : coord) (i n : nat) :
  lvl p i → steps t p n y → lvl y (i + n).
Proof.
  intros Hp Hs. induction Hs as [|n x y Hs IH Hxy].
  - by rewrite Nat.add_0_r.
  - rewrite Nat.add_succ_r. by eapply lvl_step.
Qed.

Lemma steps_source_uniq (n : nat) (p1 p2 y : coord) :
  steps t p1 n y → steps t p2 n y → p1 = p2.
Proof.
  revert y. induction n as [|n IH]; intros y H1 H2.
  - inversion H1; inversion H2; congruence.
  - inversion H1 as [|? x1 ? Hs1 Hx1]; inversion H2 as [|? x2 ? Hs2 Hx2]; subst.
    assert (x1 = x2) as -> by by eapply parent_uniq.
    by eapply IH.
Qed.

Lemma each_edge_NoDup recur (p : coord) cs ces :
  each_edge recur p cs = Some ces → NoDup cs →
  (∀ c below, c ∈ cs → recur c = Some below → NoDup below.*2 ∧ c ∉ below.*2) →
  (∀ c1 c2 b1 b2 y, c1 ∈ cs → c2 ∈ cs → c1 ≠ c2 →
     recur c1 = Some b1 → recur c2 = Some b2 → y ∈ b1.*2 → y ∉ b2.*2) →
  (∀ c1 c2 b2, c1 ∈ cs → c2 ∈ cs → c1 ≠ c2 → recur c2 = Some b2 → c1 ∉ b2.*2) →
  NoDup ces.*2.
Proof.
  revert ces. induction cs as [|c cs IH]; intros ces H Hnd Hown Hsep Hroot.
  - cbn in H. injection H as <-. constructor.
  - apply each_edge_cons_inv in H as (below & rest & Hb & Hr & ->).
    apply NoDup_cons in Hnd as [Hc Hnd].
    assert (Hrest : ∀ y, y ∈ rest.*2 →
              ∃ c', c' ∈ cs ∧ (y = c' ∨ ∃ b', recur c' = Some b' ∧ y ∈ b'.*2)).
    { intros y (e & -> & He)%list_elem_of_fmap.
      apply (elem_of_each_edge _ _ _ _ _ Hr) in He as (c' & Hc' & [-> | (b' & Hb' & He)]).
      - exists c'. split; [done | by left].
      - exists c'. split; [done|]. right. exists b'. split; [done|].
        apply list_elem_of_fmap. eauto. }
    rewrite fmap_cons, fmap_app. cbn. apply NoDup_cons. split.
    + rewrite elem_of_app. intros [Hin | Hin].
      * destruct (Hown c below) as [_ Hn]; [left | done | done].
      * apply Hrest in Hin as (c' & Hc' & [-> | (b' & Hb' & Hin)]); [done|].
        apply (Hroot c c' b'); [left | by right | | done | done].
        by intros ->.
    + apply NoDup_app. split; [|split].
      * apply (Hown c below); [left | done].
      * intros y Hy Hin.
        apply Hrest in Hin as (c' & Hc' & [-> | (b' & Hb' & Hin)]).
        -- apply (Hroot c' c below); [by right | left | | done | done].
           by intros ->.
        -- apply (Hsep c c' below b' y); [left | by right | | done..].
           by intros ->.
      * apply IH; [done | done | | |].
        -- intros c' b' Hc'. apply Hown. by right.
        -- intros c1 c2 b1 b2 y H1 H2. apply Hsep; by right.
        -- intros c1 c2 b2 H1 H2. apply Hroot; by right.
Qed.

Lemma walk_edges_NoDup (depth : nat) (p : coord) (i : nat) ces :
  lvl p i → walk_edges t depth p = Some ces → NoDup ces.*2.
Proof.
  revert p i ces. induction depth as [|d IH]; intros p i ces Hp H; [done|].
  assert (Hsub : ∀ c b y, c ∈ elements (children t p) →
            walk_edges t d c = Some b → y ∈ b.*2 →
            lvl c (S i) ∧ ∃ n, lvl y (S i + S n) ∧ steps t c (S n) y).
  { intros c b y Hc%elem_of_elements Hb (e & -> & He)%list_elem_of_fmap.
    assert (lvl c (S i)) by by eapply lvl_step.
    split; [done|]. destruct e as [x y].
    destruct (walk_edges_below _ _ _ _ _ _ Hb He) as [n Hn].
    exists n. split; [|done]. by eapply lvl_steps. }
  cbn [walk_edges] in H. eapply each_edge_NoDup; [exact H | apply NoDup_elements | | |].
  - intros c b Hc Hb. split.
    + eapply (IH c (S i)); [|done]. eapply lvl_step; [done|].
      by apply elem_of_elements.
    + intros Hin. destruct (Hsub _ _ _ Hc Hb Hin) as (Hl & n & Hl' & _).
      pose proof (lvl_fun _ _ _ Hl Hl'). lia.
  - intros c1 c2 b1 b2 y H1 H2 Hne Hb1 Hb2 Hy1 Hy2.
    destruct (Hsub _ _ _ H1 Hb1 Hy1) as (_ & n1 & Hl1 & Hs1).
    destruct (Hsub _ _ _ H2 Hb2 Hy2) as (_ & n2 & Hl2 & Hs2).
    pose proof (lvl_fun _ _ _ Hl1 Hl2).
    assert (n1 = n2) as -> by lia.
    apply Hne. by eapply steps_source_uniq.
  - intros c1 c2 b2 H1 H2 Hne Hb2 Hin.
    destruct (Hsub _ _ _ H2 Hb2 Hin) as (_ & n & Hl & _).
    assert (Hl1 : lvl c1 (S i)).
    { eapply lvl_step; [done|]. by apply elem_of_elements. }
    pose proof (lvl_fun _ _ _ Hl Hl1). lia.
Qed.

End Levels.

(** ** [traverse] emits the ids of the coordinate edges *)

Lemma each_child_each_edge ids rec_r rec_o (p : coord) cs :
  (∀ c, c ∈ cs → is_Some (ids !! p) ∧ is_Some (ids !! c)) →
  (∀ c, rec_r c = ids_of_walk ids (rec_o c)) →
  each_child ids rec_r p cs = ids_of_walk ids (each_edge rec_o p cs).
Proof.
  intros Hids Hrec. induction cs as [|c cs IH]; [done|].
  cbn. destruct (Hids c) as [[a Ha] [b Hb]]; [left|].
  unfold id_of. rewrite Ha, Hb. cbn. rewrite Hrec.
  destruct (rec_o c) as [below|]; [|done]. cbn.
  rewrite IH by (intros; apply Hids; by right).
  destruct (each_edge rec_o p cs) as [rest|]; [|done]. cbn.
  rewrite fmap_app. unfold id_edge at 3, idx. cbn. by rewrite Ha, Hb.
Qed.

Lemma traverse_walk t ids (depth : nat) (p : coord) :
  (∀ p c, c ∈ children t p → is_Some (ids !! p) ∧ is_Some (ids !! c)) →
  traverse t ids depth p = ids_of_walk ids (walk_edges t depth p).
Proof.
  intros Hids. revert p. induction depth as [|d IH]; intros p; [done|].
  cbn [traverse walk_edges]. apply each_child_each_edge; [|done].
  intros c Hc%elem_of_elements. by apply Hids.
Qed.


(** ** The vertex list is the list of first occurrences *)

Lemma assign_id_see st (v : coord) :
  (∀ w (i : nat), tree_id st !! w = Some i ↔ vertices st !! i = Some w) →
  vertices (assign_id v st) = see (vertices st) v.
Proof.
  intros Hids. unfold assign_id, see.
  destruct (tree_id st !! v) as [i|] eqn:Hv.
  - apply Hids in Hv. rewrite decide_True; [done|].
    by eapply list_elem_of_lookup_2.
  - rewrite decide_False; [done|].
    intros [i Hi]%list_elem_of_lookup_1. apply Hids in Hi. congruence.
Qed.

Lemma register_pair_see ps st (pc : coord * coord) :
  reg_inv ps st →
  vertices (register_pair st pc) = see (see (vertices st) pc.1) pc.2.
Proof.
  intros [Hadj Hids Hct Hmem]. destruct pc as [p c]. unfold register_pair.
  set (s1 := add_child p c st).
  destruct (assign_id_spec p s1) as (Ht2 & Hids2 & Hct2 & Hmem2); [done..|].
  assert (Hs3 : tree_id (touch c (assign_id p s1)) = tree_id (assign_id p s1) ∧
                vertices (touch c (assign_id p s1)) = vertices (assign_id p s1)).
  { unfold touch. by destruct (tree (assign_id p s1) !! c). }
  destruct Hs3 as [Hi3 Hv3].
  rewrite assign_id_see by (by rewrite Hi3, Hv3).
  rewrite Hv3. by rewrite assign_id_see.
Qed.

Lemma foldl_register_pair_see ps0 st ps :
  reg_inv ps0 st →
  vertices (foldl register_pair st ps) = foldl see (vertices st) (endpoints ps).
Proof.
  revert ps0 st. induction ps as [|pc ps IH]; intros ps0 st Hinv; [done|].
  cbn [foldl]. destruct pc as [p c].
  rewrite (IH (ps0 ++ [(p, c)])) by by apply register_pair_inv.
  by rewrite (register_pair_see ps0).
Qed.

Lemma register_first_seen (paths : list (list coord)) :
  vertices (register paths) = first_seen (endpoints (all_pairs paths)).
Proof.
  unfold register. rewrite register_foldl.
  apply (foldl_register_pair_see [] reg_init), reg_inv_init.
Qed.

(** ** Packing and reading back *)

Lemma rows3_pack (vs : list coord) :
  Forall in_u32 vs → rows3 (pack_vertices vs) = vs.
Proof.
  induction 1 as [|[[x y] z] vs (Hx & Hy & Hz) _ IH]; [done|].
  cbn. unfold pack_vertices in IH. rewrite IH. unfold u32.
  by rewrite !Z.mod_small.
Qed.

Lemma rows2_pack_length (es : list (nat * nat)) :
  length (rows2 (pack_edges es)) = length es.
Proof.
  induction es as [|[a b] es IH]; [done|]. cbn.
  unfold pack_edges in IH. by rewrite IH.
Qed.

Lemma see_subset (acc : list coord) (l : list coord) (P : coord → Prop) :
  Forall P acc → Forall P l → Forall P (foldl see acc l).
Proof.
  revert acc. induction l as [|v l IH]; intros acc Hacc Hl; [done|].
  apply Forall_cons in Hl as [Hv Hl]. cbn. apply IH; [|done].
  unfold see. case_decide; [done|]. apply Forall_app. split; [done|].
  by apply Forall_singleton.
Qed.

Lemma vertices_in_u32 (paths : list (list coord)) :
  Forall (Forall in_u32) paths → Forall in_u32 (vertices (register paths)).
Proof.
  intros Hall. rewrite register_first_seen. apply see_subset; [constructor|].
  apply Forall_forall. intros v (pc & Hv & Hpc)%list_elem_of_bind.
  destruct pc as [p c].
  apply elem_of_all_pairs in Hpc as (path & i & Hpath & Hi & HSi).
  rewrite Forall_forall in Hall. specialize (Hall _ Hpath).
  rewrite Forall_forall in Hall.
  apply elem_of_cons in Hv as [-> | [-> | []%elem_of_nil]%elem_of_cons];
    apply Hall; by eapply list_elem_of_lookup_2.
Qed.


(** ** Registered links and ids *)

Lemma registered_ids (paths : list (list coord)) (p c : coord) :
  c ∈ children (tree (register paths)) p →
  is_Some (tree_id (register paths) !! p) ∧ is_Some (tree_id (register paths) !! c).
Proof.
  pose proof (register_inv paths) as [Hadj Hids _ Hmem]. intros Hpc%Hadj.
  assert (Hp : p ∈ vertices (register paths)) by (apply Hmem; eauto).
  assert (Hc : c ∈ vertices (register paths)) by (apply Hmem; eauto).
  apply list_elem_of_lookup_1 in Hp as [i Hi], Hc as [j Hj].
  apply Hids in Hi, Hj. eauto.
Qed.

Lemma walk_edges_None t (depth : nat) (p : coord) :
  walk_edges t depth p = None → ∃ y, steps t p depth y.
Proof.
  revert p. induction depth as [|d IH]; intros p H.
  - exists p. constructor.
  - destruct (decide (Forall (λ c, is_Some (walk_edges t d c))
                             (elements (children t p)))) as [Hall | Hex].
    + rewrite Forall_forall in Hall. cbn in H.
      destruct (each_edge_Some (walk_edges t d) p _ Hall) as [r Hr]. congruence.
    + apply not_Forall_Exists in Hex; [|intros x; apply _].
      apply Exists_exists in Hex as (c & Hc%elem_of_elements & Hn).
      destruct (IH c) as [y Hy].
      { destruct (walk_edges t d c) as [b|] eqn:Hb; [|done]. destruct Hn. by exists b. }
      exists y. by eapply steps_cons.
Qed.

(** What [path_union] returns, for every input: an [IndexError] when
    there is no first coordinate, a [RecursionError] when a chain of
    [depth] links starts at the root, and otherwise the registered
    vertices with the ids of the links the traversal follows. *)
Lemma path_union_lists_cases (depth : nat) (paths : list (list coord)) :
  let st := register paths in
  match root_of paths with
  | Raise e => path_union_lists depth paths = Raise e
  | Ok root =>
      match walk_edges (tree st) depth root with
      | None => path_union_lists depth paths = Raise RecursionError ∧
                ∃ y, steps (tree st) root depth y
      | Some ces => path_union_lists depth paths =
                      Ok (vertices st, id_edge (tree_id st) <$> ces)
      end
  end.
Proof.
  intros st. unfold path_union_lists. destruct (root_of paths) as [root|e]; [|done].
  cbn. fold st. rewrite (traverse_walk (tree st) (tree_id st) depth root)
    by apply registered_ids.
  destruct (walk_edges (tree st) depth root) as [ces|] eqn:Hw; [done|].
  split; [done|]. by apply walk_edges_None.
Qed.

Lemma not_child_unreachable (paths : list (list coord)) (root c : coord) :
  c ≠ root → Forall (λ pc : coord * coord, pc.2 ≠ c) (all_pairs paths) →
  ¬ reachable (tree (register paths)) root c.
Proof.
  intros Hne Hall [n Hn]. inversion Hn as [|m x y Hs Hxy]; subst; [done|].
  apply (inv_adj _ _ (register_inv paths)) in Hxy.
  rewrite Forall_forall in Hall. by apply (Hall _ Hxy).
Qed.

(** ** Paths that form a tree *)
Section TreeInput.
Variable paths : list (list coord).
Variable root : coord.
Hypothesis Hroot : shares_root root paths.
Hypothesis Hsingle : single_parent paths.
Hypothesis Hnochild : root_not_child root paths.

Abbreviation t := (tree (register paths)).

Abbreviation lvl := (at_level paths).

Lemma lvl_0 (c : coord) : lvl c 0 → c = root.
Proof.
  intros (path & Hin & Hc). unfold shares_root in Hroot.
  rewrite Forall_forall in Hroot. specialize (Hroot _ Hin).
  rewrite head_lookup in Hroot. congruence.
Qed.

Lemma lvl_pred (c : coord) (i : nat) :
  lvl c (S i) → ∃ x, lvl x i ∧ (x, c) ∈ all_pairs paths.
Proof.
  intros (path & Hin & Hc).
  destruct (lookup_lt_is_Some_2 path i) as [x Hx].
  { apply lookup_lt_Some in Hc. lia. }
  exists x. split; [by exists path|].
  apply elem_of_all_pairs. by exists path, i.
Qed.

Lemma pairs_single (p1 p2 c : coord) :
  (p1, c) ∈ all_pairs paths → (p2, c) ∈ all_pairs paths → p1 = p2.
Proof.
  intros H1 H2. unfold single_parent in Hsingle.
  rewrite Forall_forall in Hsingle. specialize (Hsingle _ H1).
  rewrite Forall_forall in Hsingle. by apply (Hsingle _ H2).
Qed.

Lemma pairs_root (p : coord) : (p, root) ∉ all_pairs paths.
Proof.
  intros H. unfold root_not_child in Hnochild.
  rewrite Forall_forall in Hnochild. by apply (Hnochild _ H).
Qed.

Lemma lvl_functional (c : coord) (i j : nat) : lvl c i → lvl c j → i = j.
Proof.
  revert c j. induction i as [|i IH]; intros c [|j] Hi Hj; [done | | |].
  - apply lvl_0 in Hi as ->. apply lvl_pred in Hj as (x & _ & Hx).
    by apply pairs_root in Hx.
  - apply lvl_0 in Hj as ->. apply lvl_pred in Hi as (x & _ & Hx).
    by apply pairs_root in Hx.
  - apply lvl_pred in Hi as (x1 & Hl1 & Hx1), Hj as (x2 & Hl2 & Hx2).
    assert (x1 = x2) as -> by by eapply pairs_single.
    f_equal. by eapply IH.
Qed.

Lemma lvl_child (p c : coord) (i : nat) :
  lvl p i → c ∈ children t p → lvl c (S i).
Proof.
  intros Hp Hpc. apply (inv_adj _ _ (register_inv paths)) in Hpc.
  apply elem_of_all_pairs in Hpc as (path & j & Hin & Hj & HSj).
  assert (i = j) as -> by (eapply lvl_functional; [done | by exists path]).
  by exists path.
Qed.

Lemma tree_parent_uniq (p1 p2 c : coord) :
  c ∈ children t p1 → c ∈ children t p2 → p1 = p2.
Proof.
  intros H1 H2. apply (inv_adj _ _ (register_inv paths)) in H1, H2.
  by eapply pairs_single.
Qed.

Hypothesis Hpairs : all_pairs paths ≠ [].

Lemma root_first : ∃ c, (root, c) ∈ all_pairs paths.
Proof.
  destruct (all_pairs paths) as [|[p c] ps] eqn:Hps; [done|].
  assert (Hin : (p, c) ∈ all_pairs paths) by (rewrite Hps; left).
  apply elem_of_all_pairs in Hin as (path & i & Hin & Hi & HSi).
  destruct path as [|r [|c' tl]].
  - done.
  - by destruct i.
  - exists c'. rewrite <- Hps. apply elem_of_all_pairs.
    exists (r :: c' :: tl), 0%nat. split; [done|]. cbn.
    unfold shares_root in Hroot. rewrite Forall_forall in Hroot.
    specialize (Hroot _ Hin). cbn in Hroot. by injection Hroot as ->.
Qed.

Lemma lvl_root : lvl root 0.
Proof.
  destruct root_first as [c Hc].
  apply elem_of_all_pairs in Hc as (path & i & Hin & Hi & HSi).
  exists path. split; [done|].
  unfold shares_root in Hroot. rewrite Forall_forall in Hroot.
  specialize (Hroot _ Hin). by rewrite head_lookup in Hroot.
Qed.

Lemma root_of_tree : root_of paths = Ok root.
Proof.
  destruct root_first as [c Hc].
  apply elem_of_all_pairs in Hc as (path & i & Hin & Hi & HSi).
  unfold shares_root in Hroot. destruct paths as [|p0 ps]; [by apply elem_of_nil in Hin|].
  apply Forall_cons in Hroot as [H0 _]. by destruct p0 as [|r tl]; simplify_eq/=.
Qed.

Lemma tree_no_long_chain (depth : nat) :
  fits_depth depth paths → ∀ y, ¬ steps t root depth y.
Proof.
  intros Hfit y Hs.
  apply (lvl_steps t lvl lvl_child root y 0 depth lvl_root) in Hs.
  destruct Hs as (path & Hin & Hy). unfold fits_depth in Hfit.
  rewrite Forall_forall in Hfit. specialize (Hfit _ Hin).
  apply lookup_lt_Some in Hy. cbn in Hy. lia.
Qed.

(** Every coordinate at a positive index of a path is the far end of
    an emitted edge. *)
Lemma walk_edges_covers (depth : nat) ces (path : list coord) (i : nat) (y : coord) :
  walk_edges t depth root = Some ces →
  path ∈ paths → path !! S i = Some y → y ∈ ces.*2.
Proof.
  intros Hw Hin. destruct (walk_edges_closed t _ _ _ Hw) as [Hfirst Hnext].
  revert y. induction i as [|i IH]; intros y Hy.
  - apply list_elem_of_fmap. exists (root, y). split; [done|].
    apply Hfirst, (inv_adj _ _ (register_inv paths)), elem_of_all_pairs.
    exists path, 0%nat. split; [done|]. split; [|done].
    unfold shares_root in Hroot. rewrite Forall_forall in Hroot.
    specialize (Hroot _ Hin). by rewrite head_lookup in Hroot.
  - destruct (lookup_lt_is_Some_2 path (S i)) as [x Hx].
    { apply lookup_lt_Some in Hy. lia. }
    apply IH in Hx as Hxin. apply list_elem_of_fmap in Hxin as ([w x'] & Heq & Hwx).
    cbn in Heq. subst x'. apply list_elem_of_fmap. exists (x, y). split; [done|].
    eapply Hnext; [exact Hwx|].
    apply (inv_adj _ _ (register_inv paths)), elem_of_all_pairs.
    by exists path, (S i).
Qed.

Lemma tree_edge_count (depth : nat) ces :
  walk_edges t depth root = Some ces →
  length (vertices (register paths)) = S (length ces).
Proof.
  intros Hw. pose proof (register_inv paths) as Hinv.
  assert (Hperm : root :: ces.*2 ≡ₚ vertices (register paths)).
  { apply NoDup_Permutation.
    - apply NoDup_cons. split.
      + intros ([x y] & Heq & Hin)%list_elem_of_fmap. cbn in Heq. subst y.
        apply (walk_edges_sound t) with (x := x) (y := root) in Hw as [Hadj _];
          [|done].
        apply (inv_adj _ _ Hinv) in Hadj. by apply pairs_root in Hadj.
      + eapply (walk_edges_NoDup t lvl lvl_functional lvl_child tree_parent_uniq);
          [apply lvl_root | done].
    - by eapply reg_inv_NoDup.
    - intros v. rewrite elem_of_cons, (inv_mem _ _ Hinv). split.
      + intros [-> | ([x y] & Heq & Hin)%list_elem_of_fmap].
        * destruct root_first as [c Hc]. eauto.
        * cbn in Heq. subst y.
          apply (walk_edges_sound t) with (x := x) (y := v) in Hw as [Hadj _];
            [|done].
          apply (inv_adj _ _ Hinv) in Hadj. eauto.
      + intros (q & [Hvq | Hqv]).
        * apply elem_of_all_pairs in Hvq as (path & [|i] & Hin & Hi & HSi).
          -- left. apply lvl_0. by exists path.
          -- right. by eapply walk_edges_covers.
        * apply elem_of_all_pairs in Hqv as (path & i & Hin & Hi & HSi).
          right. by eapply walk_edges_covers. }
  apply Permutation_length in Hperm. rewrite <- Hperm. cbn.
  by rewrite length_fmap.
Qed.

End TreeInput.


Lemma num_roots_shared (root : coord) (paths : list (list coord)) :
  shares_root root paths → paths ≠ [] → num_roots paths = 1%nat.
Proof.
  intros Hroot Hne. unfold num_roots.
  assert (Hset : list_to_set (omap head paths) = ({[root]} : gset coord)).
  { destruct paths as [|p0 ps]; [done|]. clear Hne.
    apply Forall_cons in Hroot as [H0 Hps]. cbn. rewrite H0. cbn.
    induction Hps as [|p ps Hp _ IH]; cbn; [by rewrite (right_id_L ∅ (∪))|].
    rewrite Hp. cbn. by rewrite IH, (idemp_L (∪)). }
  rewrite Hset. apply size_singleton.
Qed.

Lemma path_union_cases (depth : nat) (paths : list (list coord)) vs es :
  path_union_lists depth paths = Ok (vs, es) →
  path_union depth paths = Ok (pack_vertices vs, pack_edges es).
Proof. unfold path_union. by intros ->. Qed.

Lemma path_union_Ok_inv (depth : nat) (paths : list (list coord)) npv npe :
  path_union depth paths = Ok (npv, npe) →
  ∃ es, path_union_lists depth paths = Ok (vertices (register paths), es) ∧
        npv = pack_vertices (vertices (register paths)) ∧ npe = pack_edges es.
Proof.
  unfold path_union. pose proof (path_union_lists_cases depth paths) as Hc.
  cbn in Hc. destruct (root_of paths) as [root|e]; [|by rewrite Hc].
  destruct (walk_edges _ depth root) as [ces|].
  - rewrite Hc. cbn. intros [= <- <-]. eauto.
  - destruct Hc as [-> _]. done.
Qed.

(** C3, the claim as worded, fails on two routes that meet again: four
    vertices, four edges, one root. *)
Lemma path_union_diamond_not_tree : ¬ tree_validity 5 diamond.
Proof.
  intros H.
  destruct (H [0; 0; 0; 1; 0; 0; 1; 1; 0; 0; 1; 0] [0; 3; 3; 2; 0; 1; 1; 2])
    as [Hlen _]; [by vm_compute|].
  vm_compute in Hlen. discriminate.
Qed.

(** C3, amended.  With coordinates in the [uint32] range: whenever
    [path_union] returns, no position is listed twice and the positions
    are the coordinates of the visited pairs in first-seen order; and when
    the paths all start at one root, give every coordinate a single parent,
    never re-enter the root, and fit the recursion depth, [path_union]
    returns with as many edges as vertices less the one root. *)
Theorem path_union_tree_validity (depth : nat) (paths : list (list coord)) :
  Forall (Forall in_u32) paths →
  (∀ npv npe, path_union depth paths = Ok (npv, npe) →
     NoDup (rows3 npv) ∧ rows3 npv = first_seen (endpoints (all_pairs paths))) ∧
  (∀ root, shares_root root paths → single_parent paths →
     root_not_child root paths → fits_depth depth paths → all_pairs paths ≠ [] →
     ∃ npv npe, path_union depth paths = Ok (npv, npe) ∧
       (length (rows2 npe) + num_roots paths)%nat = length (rows3 npv)).
Proof.
  intros Hrange. pose proof (vertices_in_u32 _ Hrange) as Hvs. split.
  - intros npv npe (es & _ & -> & ->)%path_union_Ok_inv.
    rewrite rows3_pack by done. split.
    + eapply reg_inv_NoDup, register_inv.
    + apply register_first_seen.
  - intros root Hroot Hsingle Hnochild Hfit Hpairs.
    pose proof (path_union_lists_cases depth paths) as Hc. cbn in Hc.
    assert (Hr : root_of paths = Ok root) by (by eapply root_of_tree).
    rewrite Hr in Hc.
    destruct (walk_edges_total (tree (register paths)) depth root) as [ces Hw].
    { by eapply tree_no_long_chain. }
    rewrite Hw in Hc. apply path_union_cases in Hc.
    eexists _, _. split; [exact Hc|].
    rewrite rows3_pack, rows2_pack_length, length_fmap by done.
    rewrite (num_roots_shared root) by (done || by intros ->).
    assert (Hcount : length (vertices (register paths)) = S (length ces))
      by (by eapply tree_edge_count).
    rewrite Hcount.
    lia.
Qed.

(** The two paths of [fork] form a tree of four vertices and three
    edges. *)
Lemma path_union_tree_validity_witness :
  ∃ npv npe, path_union 3 fork = Ok (npv, npe) ∧
    (length (rows2 npe) + num_roots fork)%nat = length (rows3 npv).
Proof.
  assert (Hrange : Forall (Forall in_u32) fork).
  { repeat constructor; cbn; lia. }
  destruct (path_union_tree_validity 3 fork Hrange) as [_ Htree].
  apply (Htree (0, 0, 0)).
  - repeat constructor.
  - repeat (constructor; try (cbn; intros; congruence)).
  - repeat (constructor; try (cbn; intros; congruence)).
  - repeat constructor.
  - discriminate.
Defined.

(** C4, the claim as worded, fails: on two paths that share no
    coordinate the second path is unreachable from the root, and
    [path_union] returns all four positions and the one edge. *)
Lemma path_union_unreachable_returns :
  occurs (5, 5, 5) two_roots ∧
  ¬ reachable (tree (register two_roots)) (0, 0, 0) (5, 5, 5) ∧
  path_union 5 two_roots = Ok ([0; 0; 0; 1; 0; 0; 5; 5; 5; 6; 5; 5], [0; 1]).
Proof.
  split; [|split].
  - exists (6, 5, 5). left. cbn. set_solver.
  - apply not_child_unreachable; [done|].
    repeat (constructor; try (cbn; intros; congruence)).
  - by vm_compute.
Qed.

(** C4, amended.  [path_union] makes no reachability check.  When a
    coordinate of some visited pair is unreachable from the root, the
    call either raises [RecursionError] because a chain of [depth] links
    starts at the root, or returns: the coordinate keeps its place in the
    vertex list and no returned edge mentions its id. *)
Theorem path_union_keeps_unreachable
    (depth : nat) (paths : list (list coord)) (root c : coord) :
  root_of paths = Ok root →
  occurs c paths →
  ¬ reachable (tree (register paths)) root c →
  (path_union depth paths = Raise RecursionError ∧
     ∃ y, steps (tree (register paths)) root depth y) ∨
  (∃ vs es (i : nat),
     path_union depth paths = Ok (pack_vertices vs, pack_edges es) ∧
     NoDup vs ∧ vs !! i = Some c ∧ ∀ a b, (a, b) ∈ es → a ≠ i ∧ b ≠ i).
Proof.
  intros Hr Hocc Hun. pose proof (register_inv paths) as Hinv.
  pose proof (path_union_lists_cases depth paths) as Hc. cbn in Hc.
  rewrite Hr in Hc.
  destruct (walk_edges (tree (register paths)) depth root) as [ces|] eqn:Hw.
  - right. apply (inv_mem _ _ Hinv) in Hocc.
    apply list_elem_of_lookup_1 in Hocc as [i Hi].
    exists (vertices (register paths)), (id_edge (tree_id (register paths)) <$> ces), i.
    split; [by apply path_union_cases|]. split; [by eapply reg_inv_NoDup|].
    split; [done|].
    intros a b ([x y] & [= -> ->] & Hin)%list_elem_of_fmap. cbn.
    destruct (walk_edges_sound _ _ _ _ _ _ Hw Hin) as (Hxy & n & Hn).
    destruct (registered_ids _ _ _ Hxy) as [[j Hj] [k Hk]].
    unfold idx. rewrite Hj, Hk. cbn.
    apply (inv_ids _ _ Hinv) in Hj, Hk. split; intros ->; apply Hun.
    + exists n. congruence.
    + exists (S n). assert (y = c) as <- by congruence. by eapply steps_S.
  - left. destruct Hc as [Hc Hy]. split; [|done].
    unfold path_union. by rewrite Hc.
Qed.

(** On [two_roots] the start of the second path is kept and orphaned. *)
Lemma path_union_keeps_unreachable_witness :
  (path_union 5 two_roots = Raise RecursionError ∧
     ∃ y, steps (tree (register two_roots)) (0, 0, 0) 5 y) ∨
  (∃ vs es (i : nat),
     path_union 5 two_roots = Ok (pack_vertices vs, pack_edges es) ∧
     NoDup vs ∧ vs !! i = Some (5, 5, 5) ∧ ∀ a b, (a, b) ∈ es → a ≠ i ∧ b ≠ i).
Proof.
  apply (path_union_keeps_unreachable 5 two_roots (0, 0, 0) (5, 5, 5)).
  - reflexivity.
  - exists (6, 5, 5). left. cbn. set_solver.
  - apply not_child_unreachable; [done|].
    repeat (constructor; try (cbn; intros; congruence)).
Defined.

End PathUnionFacts.

(** * Properties of the stage-2 merge *)
Module MergeFacts.
Import SkeletonMergeTask.

(** ** Fusing *)

(** The first skeleton appended receives the offset the loop starts
    with, whatever the number of vertices already in [fusing]. *)
Lemma fuse_loop_first (fusing skel : Skeleton) :
  edges skel ≠ [] →
  edges (fuse_loop fusing 0 [skel]) = edges fusing ++ shift_edges 0 (edges skel).
Proof. intros Hne. cbn. by destruct (edges skel). Qed.

Lemma shift_edges_0 (es : list (Z * Z)) :
  Forall (λ e, 0 ≤ e.1 < 2 ^ 32 ∧ 0 ≤ e.2 < 2 ^ 32) es → shift_edges 0 es = es.
Proof.
  induction 1 as [|[a b] es [Ha Hb] _ IH]; [done|].
  unfold shift_edges in *. cbn in *. rewrite IH. unfold u32.
  rewrite !Z.add_0_r, !Z.mod_mod, !Z.mod_small by lia. done.
Qed.

(** C1 fails in stage 2.  Two fragments of two vertices and one edge
    each, in boxes that do not meet: the fused skeleton has four vertices
    and the edge of the second fragment is still (0, 1), joining the two
    vertices of the first fragment; shifted by the two vertices appended
    before it, it would be (2, 3). *)
Theorem fuse_skeletons_second_fragment_unshifted :
  fuse [frag_a; frag_b] =
    Ok (MkSkeleton (nodes frag_a ++ nodes frag_b) [(0, 1); (0, 1)]
                   (radii frag_a ++ radii frag_b)) ∧
  find_paired_skeletons demo [file_a; file_b] = [] ∧
  fuse_skeletons demo [file_a; file_b] = fuse [frag_a; frag_b] ∧
  shift_edges (Z.of_nat (length (nodes frag_a))) (edges frag_b) = [(2, 3)].
Proof. by vm_compute. Qed.

(** ** The point cloud *)

(** C6 fails.  Object 7 holds the voxels (0,1,0) and (1,0,0) of the
    cutout; sorting each column on its own pairs the coordinates anew and
    the point cloud returned is (0,0,0), (1,1,0): two voxels that do not
    hold 7, and neither voxel that does. *)
Theorem get_point_cloud_rows_scrambled :
  argwhere (read_volume demo (from_filename demo file_diag)) 7
    = [(0, 1, 0); (1, 0, 0)] ∧
  get_point_cloud demo 7 [file_diag] = [(0, 0, 0); (1, 1, 0)].
Proof. by vm_compute. Qed.

(** ** The log of [agglomerate] *)

Lemma merge_all_writes (C : Collaborators) (skels : list (Z * list string)) :
  Forall (λ ev, is_write ev = true) (merge_all C skels).1.
Proof.
  induction skels as [|[segid frags] skels IH]; cbn; [constructor|].
  destruct (merge_one C segid frags); cbn; [|constructor].
  by repeat constructor.
Qed.

Lemma merge_all_None (C : Collaborators) (skels : list (Z * list string)) log :
  merge_all C skels = (log, None) →
  length log = (2 * length skels)%nat ∧
  ∀ (k : nat) segid frags, skels !! k = Some (segid, frags) →
    ∃ skeleton, merge_one C segid frags = Ok skeleton ∧
                log !! (2 * k)%nat = Some (Upload segid skeleton) ∧
                log !! S (2 * k) = Some (PutJson segid (basename C <$> frags)).
Proof.
  revert log. induction skels as [|[segid frags] skels IH]; intros log;
    cbn [merge_all].
  - intros [= <-]. split; [done|]. by intros k ? ? ?.
  - destruct (merge_one C segid frags) as [skeleton|e] eqn:Hone; [|done].
    destruct (merge_all C skels) as [log' out'] eqn:Hrest. cbn [fst snd].
    intros [= <- ->]. destruct (IH _ eq_refl) as [Hlen Hk]. split.
    + cbn [length]. rewrite Hlen. lia.
    + intros [|k] s f Hsf.
      * injection Hsf as <- <-. by exists skeleton.
      * destruct (Hk k s f Hsf) as (sk & Hm & Hu & Hp).
        exists sk. replace (2 * S k)%nat with (S (S (2 * k))) by lia.
        split; [exact Hm|]. split; [exact Hu | exact Hp].
Qed.

Lemma merge_all_app_raise (C : Collaborators) pre segid frags post e :
  Forall (λ sf : Z * list string, is_Ok (merge_one C sf.1 sf.2)) pre →
  merge_one C segid frags = Raise e →
  merge_all C (pre ++ (segid, frags) :: post) = ((merge_all C pre).1, Some e) ∧
  (merge_all C pre).2 = None.
Proof.
  intros Hpre Hfail. induction Hpre as [|[s f] pre [sk Hsk] _ [IH1 IH2]]; cbn.
  - by rewrite Hfail.
  - cbn in Hsk. rewrite Hsk. cbn. by rewrite IH1, IH2.
Qed.

(** C8.  In the log of [agglomerate] every deletion comes after the
    [wait] on the store, and the upload of the merged skeleton of the
    object and the write of its fragment list come before that [wait]:
    the skeleton uploaded is the one the merge of these fragments has
    returned, the fused fragments trimmed against the point cloud of the
    object.  A run that raises deletes nothing. *)
Theorem delete_follows_confirmed_writes
    (C : Collaborators) (listing : list string) log outcome
    (i : nat) (names : list string) :
  agglomerate C listing = (log, outcome) →
  log !! i = Some (DeleteFiles names) →
  outcome = None ∧
  ∃ segid skeleton (u p w : nat),
    (u < p < w)%nat ∧ (w < i)%nat ∧
    (segid, names) ∈ get_filenames_subset C listing ∧
    merge_one C segid names = Ok skeleton ∧
    (∃ fused, fuse_skeletons C names = Ok fused ∧
              skeleton = trim_skeleton C fused (get_point_cloud C segid names)) ∧
    log !! u = Some (Upload segid skeleton) ∧
    log !! p = Some (PutJson segid (basename C <$> names)) ∧
    log !! w = Some Wait.
Proof.
  unfold agglomerate, agglomerate_on.
  set (skels := get_filenames_subset C listing).
  pose proof (merge_all_writes C skels) as Hw.
  destruct (merge_all C skels) as [log1 [e|]] eqn:Hm; intros [= <- <-] Hi.
  - cbn in Hw. rewrite Forall_forall in Hw.
    apply list_elem_of_lookup_2, Hw in Hi. done.
  - split; [done|]. destruct (merge_all_None _ _ _ Hm) as [Hlen Hk].
    apply lookup_app_Some in Hi as [Hi | [Hge Hi]].
    { cbn in Hw. rewrite Forall_forall in Hw.
      apply list_elem_of_lookup_2, Hw in Hi. done. }
    destruct (i - length log1)%nat as [|k] eqn:Hik; [done|].
    change ((DeleteFiles <$> skels.*2) !! k = Some (DeleteFiles names)) in Hi.
    rewrite list_lookup_fmap in Hi.
    destruct (skels.*2 !! k) as [names'|] eqn:Hn; [|done]. injection Hi as ->.
    rewrite list_lookup_fmap in Hn.
    destruct (skels !! k) as [[segid frags]|] eqn:Hs; [|done].
    cbn in Hn. injection Hn as ->.
    destruct (Hk _ _ _ Hs) as (sk & Hone & Hu & Hp).
    assert (Hklt : (k < length skels)%nat) by by eapply lookup_lt_Some.
    exists segid, sk, (2 * k)%nat, (S (2 * k)), (length log1).
    split; [lia|]. split; [lia|]. split; [by eapply list_elem_of_lookup_2|].
    split; [exact Hone|]. split.
    { unfold merge_one in Hone.
      destruct (fuse_skeletons C names) as [fused|e]; [|done].
      exists fused. split; [done|]. cbn in Hone. by injection Hone as <-. }
    split; [by apply lookup_app_l_Some|]. split; [by apply lookup_app_l_Some|].
    by rewrite list_lookup_middle.
Qed.

(** The deletion of the fragment of object 2, the seventh operation of
    a batch of two objects. *)
Lemma delete_follows_confirmed_writes_witness :
  ∃ log,
    agglomerate demo [file_a; file_c; file_b] = (log, None) ∧
    ∃ segid skeleton (u p w : nat),
      (u < p < w)%nat ∧ (w < 6)%nat ∧
      (segid, [file_c]) ∈ get_filenames_subset demo [file_a; file_c; file_b] ∧
      merge_one demo segid [file_c] = Ok skeleton ∧
      (∃ fused, fuse_skeletons demo [file_c] = Ok fused ∧
                skeleton = trim_skeleton demo fused
                             (get_point_cloud demo segid [file_c])) ∧
      log !! u = Some (Upload segid skeleton) ∧
      log !! p = Some (PutJson segid (basename demo <$> [file_c])) ∧
      log !! w = Some Wait.
Proof.
  eexists. split; [by vm_compute|].
  eapply (delete_follows_confirmed_writes demo [file_a; file_c; file_b] _ None 6%nat).
  - by vm_compute.
  - by vm_compute.
Defined.

(** C9, the claim as worded, fails.  The store returns no content for
    the fragment of object 3, so its merge raises; object 2, listed after
    it, would merge, and [agglomerate] ends with the exception without
    an operation for either. *)
Lemma one_failure_aborts_batch :
  merge_one demo 3 [file_gone] = Raise TypeError ∧
  is_Ok (merge_one demo 2 [file_c]) ∧
  agglomerate demo [file_gone; file_c] = ([], Some TypeError).
Proof.
  split; [by vm_compute|]. split; [|by vm_compute].
  eexists. by vm_compute.
Qed.

(** C9, amended.  [agglomerate] handles no exception.  When the merge of
    one object raises after the objects before it have merged, the call
    ends with that exception; its log holds the uploads and metadata
    writes of the objects before it and nothing else: no later object
    is merged, nothing is deleted, nothing is recorded for the object
    that failed. *)
Theorem merge_failure_ends_batch
    (C : Collaborators) (listing : list string)
    (pre post : list (Z * list string)) (segid : Z) (frags : list string) (e : exn) :
  get_filenames_subset C listing = pre ++ (segid, frags) :: post →
  Forall (λ sf : Z * list string, is_Ok (merge_one C sf.1 sf.2)) pre →
  merge_one C segid frags = Raise e →
  agglomerate C listing = ((merge_all C pre).1, Some e) ∧
  (merge_all C pre).2 = None ∧
  length (merge_all C pre).1 = (2 * length pre)%nat ∧
  Forall (λ ev, is_write ev = true) (merge_all C pre).1.
Proof.
  intros Hlist Hpre Hfail. unfold agglomerate, agglomerate_on. rewrite Hlist.
  destruct (merge_all_app_raise C pre segid frags post e Hpre Hfail) as [-> Hnone].
  split; [done|]. split; [done|]. split; [|apply merge_all_writes].
  destruct (merge_all C pre) as [l o] eqn:Hm. cbn in *. subst o.
  by apply merge_all_None in Hm as [? _].
Qed.

(** A batch in which object 2 merges, object 3 fails and object 1 is
    never reached. *)
Lemma merge_failure_ends_batch_witness :
  agglomerate demo [file_c; file_gone; file_a] =
    ((merge_all demo [(2, [file_c])]).1, Some TypeError) ∧
  (merge_all demo [(2, [file_c])]).2 = None ∧
  length (merge_all demo [(2, [file_c])]).1 = (2 * 1)%nat ∧
  Forall (λ ev, is_write ev = true) (merge_all demo [(2, [file_c])]).1.
Proof.
  apply (merge_failure_ends_batch demo [file_c; file_gone; file_a]
           [(2, [file_c])] [(1, [file_a])] 3 [file_gone] TypeError).
  - by vm_compute.
  - repeat constructor. eexists. by vm_compute.
  - by vm_compute.
Defined.

End MergeFacts.

(** * Properties of TEASAR *)
Module TeasarFacts.
Import PathUnion Teasar.

Section Extraction.
Variable S : Solver.
Variables PDRF DBF : gmap coord fval.
Variable root : coord.
Variables scale const : Q.

Abbreviation run := (extract S PDRF DBF root scale const).
Abbreviation ball := (roll_invalidation_ball).

Lemma roll_count (labels : gset coord) (path : list coord) :
  let r := ball labels DBF path scale const in
  Z.of_nat (size labels) - r.1 = Z.of_nat (size r.2).
Proof.
  cbn. set (gone := filter (hit DBF scale const path) labels).
  assert (Hsub : gone ⊆ labels).
  { intros u Hu. by apply elem_of_filter in Hu as [_ ?]. }
  pose proof (size_difference labels gone Hsub).
  pose proof (subseteq_size _ _ Hsub). lia.
Qed.

Lemma roll_split (labels : gset coord) (path : list coord) (u : coord) :
  u ∈ labels →
  hit DBF scale const path u ∨ u ∈ (ball labels DBF path scale const).2.
Proof.
  intros Hu. cbn. destruct (decide (hit DBF scale const path u)) as [Hh | Hn].
  - by left.
  - right. apply elem_of_difference. split; [done|].
    rewrite elem_of_filter. tauto.
Qed.

(** The counter is the number of voxels left, so the loop stops on the
    empty mask and nowhere else; every voxel it started from lies in a
    ball of a path appended since. *)
Lemma extract_invariant (fuel : nat) (labels : gset coord)
    (paths : list (list coord)) out :
  run fuel labels (Z.of_nat (size labels)) paths = Some out →
  out.1 = ∅ ∧
  ∃ new, out.2 = paths ++ new ∧
         ∀ u, u ∈ labels → ∃ path, path ∈ new ∧ hit DBF scale const path u.
Proof.
  revert labels paths.
  induction fuel as [|fuel IH]; intros labels paths; cbn [extract];
    case_decide as Hpos.
  - done.
  - intros [= <-]. cbn. assert (labels = ∅) as ->.
    { apply leibniz_equiv, size_empty_inv. lia. }
    split; [done|]. exists []. split; [by rewrite app_nil_r|].
    by intros u ?%not_elem_of_empty.
  - set (target := find_target S labels PDRF).
    set (path := dijkstra S PDRF root target).
    rewrite roll_count. intros Hrun.
    destruct (IH _ _ Hrun) as (Hempty & new & Hout & Hcover).
    split; [done|]. exists (path :: new). split.
    + by rewrite Hout, <- app_assoc.
    + intros u Hu. destruct (roll_split labels path u Hu) as [Hh | Hrest].
      * exists path. split; [left | done].
      * destruct (Hcover u Hrest) as (p & Hp & Hh). exists p. split; [by right | done].
  - intros [= <-]. cbn. assert (labels = ∅) as ->.
    { apply leibniz_equiv, size_empty_inv. lia. }
    split; [done|]. exists []. split; [by rewrite app_nil_r|].
    by intros u ?%not_elem_of_empty.
Qed.

(** With a solver that picks its target in the mask and returns a path
    through it, and balls that hold their own centre, every turn
    invalidates a voxel and the loop ends within as many turns as the
    mask has voxels. *)
Lemma extract_terminates (labels0 : gset coord) :
  (∀ labels pdrf, labels ≠ ∅ → find_target S labels pdrf ∈ labels) →
  (∀ pdrf r t, t ∈ dijkstra S pdrf r t) →
  (∀ v, v ∈ labels0 → in_ball DBF scale const v v = true) →
  ∀ (fuel : nat) (labels : gset coord) paths,
    labels ⊆ labels0 → (size labels ≤ fuel)%nat →
    is_Some (run fuel labels (Z.of_nat (size labels)) paths).
Proof.
  intros Htarget Hpath Hball. induction fuel as [|fuel IH];
    intros labels paths Hsub Hsize; cbn [extract]; case_decide as Hpos;
    [lia | eauto | | eauto].
  set (target := find_target S labels PDRF).
  set (path := dijkstra S PDRF root target).
  rewrite roll_count. apply IH.
  - cbn. intros u [Hu _]%elem_of_difference. by apply Hsub.
  - assert (Hne : labels ≠ ∅).
    { intros ->. rewrite size_empty in Hpos. lia. }
    assert (Ht : target ∈ labels) by by apply Htarget.
    assert (Hgone : target ∉ (ball labels DBF path scale const).2).
    { cbn. rewrite elem_of_difference, elem_of_filter. intros [_ Hn].
      apply Hn. split; [|done]. apply Exists_exists. exists target.
      split; [apply Hpath | apply Hball; by apply Hsub]. }
    assert (Hlt : (ball labels DBF path scale const).2 ⊂ labels).
    { split; [cbn; by intros u [Hu _]%elem_of_difference|].
      intros Hback. by apply Hgone, Hback. }
    apply subset_size in Hlt. lia.
Qed.

End Extraction.

(** C2.  Whenever the extraction loop ends, no foreground voxel is left
    and every voxel that was foreground at the start lies within
    [scale * DBF(v) + const] of a vertex [v] of an emitted path; and
    with a solver that targets a voxel of the mask and returns a path
    through it, and balls that hold their centre, the loop does end. *)
Theorem teasar_balls_cover (S : Solver) (PDRF DBF : gmap coord fval)
    (root : coord) (scale const : Q) (labels : gset coord) :
  (∀ (fuel : nat) out,
     extract S PDRF DBF root scale const fuel labels (Z.of_nat (size labels)) []
       = Some out →
     out.1 = ∅ ∧
     ∀ u, u ∈ labels → ∃ path, path ∈ out.2 ∧ hit DBF scale const path u) ∧
  ((∀ labels pdrf, labels ≠ ∅ → find_target S labels pdrf ∈ labels) →
   (∀ pdrf r t, t ∈ dijkstra S pdrf r t) →
   set_Forall (λ v, in_ball DBF scale const v v = true) labels →
   is_Some (extract S PDRF DBF root scale const (size labels) labels
              (Z.of_nat (size labels)) [])).
Proof.
  split.
  - intros fuel out Hrun.
    destruct (extract_invariant _ _ _ _ _ _ _ _ _ _ Hrun) as (Hempty & new & Hout & Hc).
    split; [done|]. cbn in Hout. by rewrite Hout.
  - intros Htarget Hpath Hball.
    by eapply (extract_terminates S PDRF DBF root scale const labels).
Qed.

Lemma plain_target (labels : gset coord) (pdrf : gmap coord fval) :
  labels ≠ ∅ → find_target plain_solver labels pdrf ∈ labels.
Proof.
  intros Hne.
  change (find_target plain_solver labels pdrf)
    with (default (0, 0, 0) (head (elements labels))).
  destruct (elements labels) as [|v vs] eqn:He.
  - by apply elements_empty_inv in He as ->%leibniz_equiv.
  - assert (Hv : v ∈ elements labels) by (rewrite He; left).
    by apply elem_of_elements in Hv.
Qed.

Lemma plain_path (pdrf : gmap coord fval) (r t : coord) :
  t ∈ dijkstra plain_solver pdrf r t.
Proof.
  change (dijkstra plain_solver pdrf r t)
    with (if decide (r = t) then [r] else [r; t]).
  case_decide as Heq; [rewrite Heq; left | right; left].
Qed.

(** The loop on [row4] with the plain solver: it ends, and the three
    foreground voxels are covered. *)
Lemma teasar_balls_cover_witness :
  ∃ out,
    extract plain_solver row4 (zero_to_inf <$> row4) (1, 0, 0) 1 0 3
      (foreground row4) (Z.of_nat (size (foreground row4))) [] = Some out ∧
    out.1 = ∅ ∧
    ∀ u, u ∈ foreground row4 →
         ∃ path, path ∈ out.2 ∧ hit (zero_to_inf <$> row4) 1 0 path u.
Proof.
  destruct (teasar_balls_cover plain_solver row4 (zero_to_inf <$> row4)
              (1, 0, 0) 1 0 (foreground row4)) as [Hcover Hend].
  destruct Hend as [out Hout].
  - apply plain_target.
  - apply plain_path.
  - apply (bool_decide_unpack _). by vm_compute.
  - exists out. split; [exact Hout|]. by apply (Hcover _ _ Hout).
Defined.

(** C10, the claim as worded, fails on the early return: the maximum of
    [blob2] exceeds the threshold, the call returns the empty skeleton, and
    the zero entry at the origin is still zero. *)
Lemma teasar_skip_leaves_dbf :
  let r := TEASAR plain_solver 5 5 blob2 1 0 5000 in
  r.2 = Some (Ok Skeleton_new) ∧
  r.1 !! (0, 0, 0) = Some (Fin 0) ∧
  ¬ zeros_become_inf blob2 r.1.
Proof.
  cbn zeta. split; [by vm_compute|]. split; [by vm_compute|].
  intros H. specialize (H (0, 0, 0) (Fin 0) eq_refl).
  vm_compute in H. discriminate.
Qed.

(** C10, amended.  On the early return (no foreground voxel, or a
    maximum above [max_boundary_distance]) and when [np.max] raises,
    [TEASAR] leaves [DBF] as it was.  Otherwise, whatever the loop and
    the path union do afterwards, the array the call leaves behind holds
    [+inf] at every entry that was zero and the old value everywhere
    else. *)
Theorem teasar_dbf_effect (S : Solver) (fuel depth : nat)
    (DBF : gmap coord fval) (scale const max_boundary_distance : Q) :
  let after := (TEASAR S fuel depth DBF scale const max_boundary_distance).1 in
  match np_max DBF with
  | Raise _ => after = DBF
  | Ok dbf_max =>
      if decide (first_label S (foreground DBF) = None ∨
                 fval_gt dbf_max (Fin max_boundary_distance) = true)
      then after = DBF
      else zeros_become_inf DBF after ∧ dom after = dom DBF ∧
           ∀ v x, DBF !! v = Some x → is_zero x = false → after !! v = Some x
  end.
Proof.
  cbn zeta. unfold TEASAR. destruct (np_max DBF) as [dbf_max|e]; [|done].
  destruct (first_label S (foreground DBF)) as [any_voxel|] eqn:Hany.
  - destruct (fval_gt dbf_max (Fin max_boundary_distance)) eqn:Hgt.
    + rewrite decide_True by by right. done.
    + rewrite decide_False by (intros [? | ?]; done). cbn.
      split; [|split].
      * intros v x Hv. by rewrite lookup_fmap, Hv.
      * apply dom_fmap_L.
      * intros v x Hv Hz. rewrite lookup_fmap, Hv. cbn.
        unfold zero_to_inf. by rewrite Hz.
  - rewrite decide_True by by left. done.
Qed.

End TeasarFacts.

(** * Properties of the stage-1 task *)
Module SkeletonTaskFacts.
Import SkeletonTask.

(** With [N] components the loop runs over [range(1, N)]: a mask of one
    component yields nothing. *)
Lemma components_single (label : gset coord → list (gset coord))
    (segid : Z) (all_labels : gmap coord Z) (all_dbf : gmap coord Q) (bbox : Bbox) :
  length (label (select all_labels segid)) = 1%nat →
  components label segid all_labels all_dbf bbox = ([], None).
Proof. unfold components. by intros ->. Qed.

(** The generator never yields more than [N - 1] cutouts. *)
Lemma components_from_length (comps : list (gset coord))
    (all_dbf : gmap coord Q) (bbox : Bbox) (ks : list nat) :
  (length (components_from comps all_dbf bbox ks).1 ≤ length ks)%nat.
Proof.
  induction ks as [|i ks IH]; cbn; [done|].
  destruct (find_objects (component comps i)); cbn; [|lia].
  case_decide; cbn; lia.
Qed.

Lemma components_length (label : gset coord → list (gset coord))
    (segid : Z) (all_labels : gmap coord Z) (all_dbf : gmap coord Q) (bbox : Bbox) :
  (length (components label segid all_labels all_dbf bbox).1
     ≤ length (label (select all_labels segid)) - 1)%nat.
Proof.
  unfold components. etrans; [apply components_from_length|].
  by rewrite length_seq.
Qed.

(** C5 fails.  In [one_blob] object 7 is a single component whose box
    has volume 2: the generator yields nothing for it and [process_label]
    returns without a call of [skeletonize], whatever that method does.
    In [two_blobs] the object has two such components and only the first
    is yielded. *)
Theorem last_component_never_skeletonized :
  length (label_runs (select one_blob 7)) = 1%nat ∧
  Bbox_volume <$> (match find_objects (component (label_runs (select one_blob 7)) 1) with
                   | Ok roi => Some roi
                   | Raise _ => None
                   end) = Some 2 ∧
  components label_runs 7 one_blob flat_dbf chunk = ([], None) ∧
  (∀ skel res,
     process_label label_runs skel res 7 remap7 one_blob flat_dbf chunk = ([], Ok ())) ∧
  length (label_runs (select two_blobs 7)) = 2%nat ∧
  (components label_runs 7 two_blobs flat_dbf chunk).1.*2
    = [MkBbox (0, 0, 0) (2, 1, 1)].
Proof.
  split; [by vm_compute|]. split; [by vm_compute|]. split; [by vm_compute|].
  split; [|split; by vm_compute].
  intros skel res. unfold process_label.
  replace (components label_runs 7 one_blob flat_dbf chunk)
    with (@nil (gmap coord fval * Bbox), @None exn) by by vm_compute.
  by vm_compute.
Qed.

(** C7 fails.  Whatever the labelling, the method [skeletonize] and the
    binding of [vol]: [process_label] issues at most one operation, an
    upload under the remapped object id; it never writes a file under a
    key built from the object id and the box.  On [two_blobs], with a
    working [skeletonize] and a bound [vol], the one operation is that
    upload; with the module as it stands it is none. *)
Theorem process_label_stores_no_fragment :
  (∀ label skel res segid remap all_labels all_dbf bbox,
     let log := (process_label label skel res segid remap all_labels all_dbf bbox).1 in
     log = [] ∨
     ∃ real skeleton, remap !! segid = Some real ∧ log = [Upload real skeleton]) ∧
  process_label label_runs skeletonize_stub (Some (4, 4, 40)%Q) 7 remap7
                two_blobs flat_dbf chunk
    = ([Upload 28823174
          (MkSkeleton [(0, 0, 0)%Q; (4, 0, 0)%Q] [] [Fin 1; Fin 1])], Ok ()) ∧
  process_label label_runs skeletonize None 7 remap7 two_blobs flat_dbf chunk
    = ([], Raise TypeError).
Proof.
  split; [|split; by vm_compute].
  intros label skel res segid remap all_labels all_dbf bbox. cbn zeta.
  unfold process_label. destruct (remap !! segid) as [real|]; [|by left].
  case_decide; [by left|].
  destruct (components label segid all_labels all_dbf bbox) as [[|[dbf roi] items] [e|]];
    try (by left).
  - destruct (skel dbf roi) as [s|]; [|by left]. cbn.
    destruct (empty s); [by left|]. cbn.
    destruct res as [r|]; [|by left]. right. eauto.
  - destruct (skel dbf roi) as [s|]; [|by left]. cbn.
    destruct (empty s); [by left|]. cbn.
    destruct res as [r|]; [|by left]. right. eauto.
Qed.

End SkeletonTaskFacts.

(** * Further properties of path_union *)
Module PathUnionMore.
Import PathUnion PathUnionFacts.

(** ** Chains of links *)

Lemma steps_uncons t (p y : coord) (n : nat) :
  steps t p (S n) y → ∃ c, c ∈ children t p ∧ steps t c n y.
Proof.
  revert y. induction n as [|n IH]; intros y Hs;
    inversion Hs as [|? x ? Hx Hxy]; subst.
  - inversion Hx; subst. exists y. split; [done | constructor].
  - destruct (IH _ Hx) as (c & Hc & Hcx). exists c. split; [done|].
    by eapply steps_S.
Qed.

Lemma steps_trans t (p x y : coord) (n m : nat) :
  steps t p n x → steps t x m y → steps t p (n + m) y.
Proof.
  intros Hp Hx. induction Hx as [|m x' y Hx IH Hxy].
  - by rewrite Nat.add_0_r.
  - rewrite Nat.add_succ_r. by eapply steps_S.
Qed.

Lemma steps_prefix t (p y : coord) (n m : nat) :
  steps t p (n + m) y → ∃ x, steps t p n x.
Proof.
  revert y. induction m as [|m IH]; intros y Hs.
  - rewrite Nat.add_0_r in Hs. eauto.
  - rewrite Nat.add_succ_r in Hs. inversion Hs; subst. eauto.
Qed.

Lemma steps_iter t (c : coord) (n k : nat) :
  steps t c n c → steps t c (k * n) c.
Proof.
  intros Hc. induction k as [|k IH]; cbn; [constructor|].
  rewrite Nat.add_comm. by eapply steps_trans.
Qed.

Lemma each_edge_None recur (p c : coord) cs :
  c ∈ cs → recur c = None → each_edge recur p cs = None.
Proof.
  intros Hc Hr. induction cs as [|c0 cs IH]; [by apply elem_of_nil in Hc|].
  cbn. apply elem_of_cons in Hc as [<- | Hc].
  - by rewrite Hr.
  - destruct (recur c0); [|done]. cbn. by rewrite IH.
Qed.

Lemma walk_edges_chain t (depth : nat) (p y : coord) :
  steps t p depth y → walk_edges t depth p = None.
Proof.
  revert p. induction depth as [|d IH]; intros p Hs; [done|].
  apply steps_uncons in Hs as (c & Hc & Hs). cbn.
  eapply each_edge_None; [by apply elem_of_elements | by apply IH].
Qed.

Lemma each_edge_ext recur recur' (p : coord) cs ces :
  each_edge recur p cs = Some ces →
  (∀ c b, c ∈ cs → recur c = Some b → recur' c = Some b) →
  each_edge recur' p cs = Some ces.
Proof.
  revert ces. induction cs as [|c cs IH]; intros ces H Hext; [done|].
  apply each_edge_cons_inv in H as (below & rest & Hb & Hr & ->). cbn.
  rewrite (Hext c below) by (done || left). cbn.
  rewrite (IH rest); [done | done |]. intros c' b' Hc'. apply Hext. by right.
Qed.

Lemma walk_edges_deeper t (depth : nat) (p : coord) ces :
  walk_edges t depth p = Some ces → walk_edges t (S depth) p = Some ces.
Proof.
  revert p ces. induction depth as [|d IH]; intros p ces H; [done|].
  cbn [walk_edges] in *. eapply each_edge_ext; [exact H|].
  intros c b _ Hb. by apply IH.
Qed.

Lemma walk_edges_le t (d d' : nat) (p : coord) ces :
  (d ≤ d')%nat → walk_edges t d p = Some ces → walk_edges t d' p = Some ces.
Proof. induction 1 as [|d' _ IH]; [done|]. intros Hw. by apply walk_edges_deeper, IH. Qed.

(** ** The outcomes of [path_union] *)

(** X1.  [path_union] raises [IndexError] when there is no first
    coordinate; otherwise it raises [RecursionError] exactly when a chain
    of [depth] links starts at the root, and returns exactly when none
    does.  No other exception leaves it: the id lookups of the traversal
    never miss. *)
Theorem path_union_outcomes (depth : nat) (paths : list (list coord)) :
  match root_of paths with
  | Raise _ => path_union depth paths = Raise IndexError
  | Ok root =>
      ((∃ y, steps (tree (register paths)) root depth y) ∧
       path_union depth paths = Raise RecursionError) ∨
      ((∀ y, ¬ steps (tree (register paths)) root depth y) ∧
       is_Ok (path_union depth paths))
  end.
Proof.
  pose proof (path_union_lists_cases depth paths) as Hc. cbn in Hc.
  unfold path_union. destruct (root_of paths) as [root|e] eqn:Hr.
  - destruct (walk_edges _ depth root) as [ces|] eqn:Hw.
    + right. split.
      * intros y Hy. apply walk_edges_chain in Hy. congruence.
      * rewrite Hc. by eexists.
    + left. destruct Hc as [-> Hy]. done.
  - rewrite Hc. destruct paths as [|[|r p] ps]; by simplify_eq/=.
Qed.

(** X2.  A result obtained within some recursion depth is the result at
    every larger depth. *)
Theorem path_union_deeper (d d' : nat) (paths : list (list coord)) r :
  (d ≤ d')%nat → path_union d paths = Ok r → path_union d' paths = Ok r.
Proof.
  intros Hle. unfold path_union.
  pose proof (path_union_lists_cases d paths) as Hd.
  pose proof (path_union_lists_cases d' paths) as Hd'. cbn in Hd, Hd'.
  destruct (root_of paths) as [root|e]; [|by rewrite Hd].
  destruct (walk_edges _ d root) as [ces|] eqn:Hw.
  - rewrite (walk_edges_le _ _ _ _ _ Hle Hw) in Hd'. by rewrite Hd, Hd'.
  - destruct Hd as [-> _]. done.
Qed.

(** The result for [fork] at depth 3 is the result at depth 7. *)
Lemma path_union_deeper_witness :
  path_union 7 fork = Ok ([0; 0; 0; 1; 0; 0; 2; 0; 0; 1; 1; 0], [0; 1; 1; 2; 1; 3]).
Proof.
  apply (path_union_deeper 3 7 fork); [lia | by vm_compute].
Defined.

(** ** Paths and chains *)

Lemma path_steps (paths : list (list coord)) (path : list coord)
    (i n : nat) (x y : coord) :
  path ∈ paths → path !! i = Some x → path !! (i + n)%nat = Some y →
  steps (tree (register paths)) x n y.
Proof.
  intros Hin Hx. revert y. induction n as [|n IH]; intros y Hy.
  - rewrite Nat.add_0_r in Hy. assert (x = y) as -> by congruence. constructor.
  - rewrite Nat.add_succ_r in Hy.
    destruct (lookup_lt_is_Some_2 path (i + n)) as [z Hz].
    { apply lookup_lt_Some in Hy. lia. }
    eapply steps_S; [by apply IH|].
    apply (inv_adj _ _ (register_inv paths)), elem_of_all_pairs.
    by exists path, (i + n)%nat.
Qed.

(** X3.  When the first path comes back to a coordinate it has already
    visited, the traversal never ends: [path_union] raises
    [RecursionError] at every recursion depth. *)
Theorem path_union_revisit_overflows
    (depth : nat) (path : list coord) (rest : list (list coord))
    (i j : nat) (c : coord) :
  (i < j)%nat → path !! i = Some c → path !! j = Some c →
  path_union depth (path :: rest) = Raise RecursionError.
Proof.
  intros Hij Hi Hj.
  assert (∃ root tl, path = root :: tl) as (root & tl & Hpath).
  { destruct path; [done | eauto]. }
  set (paths := path :: rest).
  assert (Hr : root_of paths = Ok root) by (unfold paths; by rewrite Hpath).
  assert (Hin : path ∈ paths) by left.
  assert (Hroot : steps (tree (register paths)) root i c).
  { apply (path_steps paths path 0 i); [done | by rewrite Hpath | done]. }
  assert (Hloop : steps (tree (register paths)) c (j - i) c).
  { apply (path_steps paths path i (j - i)); [done | done|].
    by replace (i + (j - i))%nat with j by lia. }
  pose proof (steps_trans _ _ _ _ _ _ Hroot (steps_iter _ _ _ depth Hloop)) as Hlong.
  replace (i + depth * (j - i))%nat
    with (depth + (i + depth * (j - i) - depth))%nat in Hlong by nia.
  apply steps_prefix in Hlong as [x Hx].
  pose proof (path_union_outcomes depth paths) as Hout.
  rewrite Hr in Hout.
  destruct Hout as [[_ Hraise] | [Hno _]]; [done|]. by destruct (Hno x).
Qed.

(** A path that returns to its second coordinate. *)
Lemma path_union_revisit_overflows_witness :
  path_union 1000 ([(0, 0, 0); (1, 0, 0); (1, 1, 0); (1, 0, 0)] :: []) =
    Raise RecursionError.
Proof.
  apply (path_union_revisit_overflows 1000 _ [] 1 3 (1, 0, 0)); [lia | done | done].
Defined.

(** X4.  When [path_union] returns, its edges are the links of the input
    that leave a coordinate reachable from the root, neither more nor
    less: an edge [(a, b)] joins the vertices numbered [a] and [b] of the
    vertex list, and these stand next to each other, in this order, in
    some path. *)
Theorem path_union_edges_are_reachable_links
    (depth : nat) (paths : list (list coord)) (root : coord) vs es :
  root_of paths = Ok root →
  path_union_lists depth paths = Ok (vs, es) →
  (∀ a b, (a, b) ∈ es →
     ∃ p c, vs !! a = Some p ∧ vs !! b = Some c ∧ p ≠ c ∧
            (p, c) ∈ all_pairs paths ∧ reachable (tree (register paths)) root p) ∧
  (∀ p c, (p, c) ∈ all_pairs paths → reachable (tree (register paths)) root p →
     ∃ a b, (a, b) ∈ es ∧ vs !! a = Some p ∧ vs !! b = Some c).
Proof.
  intros Hr Hres. pose proof (register_inv paths) as Hinv.
  pose proof (path_union_lists_cases depth paths) as Hc. cbn in Hc.
  rewrite Hr in Hc.
  destruct (walk_edges _ depth root) as [ces|] eqn:Hw;
    [|destruct Hc as [Hc _]; congruence].
  rewrite Hc in Hres. injection Hres as <- <-.
  assert (Hid : ∀ p c, c ∈ children (tree (register paths)) p →
    vertices (register paths) !! idx (tree_id (register paths)) p = Some p ∧
    vertices (register paths) !! idx (tree_id (register paths)) c = Some c).
  { intros p c Hpc. destruct (registered_ids _ _ _ Hpc) as [[i Hi] [j Hj]].
    unfold idx. rewrite Hi, Hj. cbn. by split; apply (inv_ids _ _ Hinv). }
  split.
  - intros a b ([p c] & [= -> ->] & Hin)%list_elem_of_fmap. cbn.
    destruct (walk_edges_sound _ _ _ _ _ _ Hw Hin) as (Hpc & n & Hn).
    destruct (Hid _ _ Hpc) as [Hp Hc']. exists p, c.
    split; [done|]. split; [done|]. split; [|split].
    + intros ->. assert (Hloop : steps (tree (register paths)) c 1 c).
      { eapply steps_S; [constructor | done]. }
      pose proof (steps_trans _ _ _ _ _ _ Hn (steps_iter _ _ _ depth Hloop)) as Hlong.
      replace (n + depth * 1)%nat with (depth + n)%nat in Hlong by lia.
      apply steps_prefix in Hlong as [x Hx].
      apply walk_edges_chain in Hx. congruence.
    + by apply (inv_adj _ _ Hinv).
    + by exists n.
  - intros p c Hpc [n Hn]. apply (inv_adj _ _ Hinv) in Hpc.
    destruct (walk_edges_closed _ _ _ _ Hw) as [Hfirst Hnext].
    assert (Hin : (p, c) ∈ ces).
    { revert c Hpc. induction Hn as [|n x p Hn IH Hxp]; intros c Hpc.
      - by apply Hfirst.
      - eapply Hnext; [by apply IH | done]. }
    destruct (Hid _ _ Hpc) as [Hp Hc'].
    exists (idx (tree_id (register paths)) p), (idx (tree_id (register paths)) c).
    split; [|done]. apply list_elem_of_fmap. by exists (p, c).
Qed.

(** On [two_roots] the one edge is the link of the first path. *)
Lemma path_union_edges_are_reachable_links_witness :
  ∃ vs es,
    path_union_lists 5 two_roots = Ok (vs, es) ∧
    (∀ a b, (a, b) ∈ es →
       ∃ p c, vs !! a = Some p ∧ vs !! b = Some c ∧ p ≠ c ∧
              (p, c) ∈ all_pairs two_roots ∧
              reachable (tree (register two_roots)) (0, 0, 0) p) ∧
    (∀ p c, (p, c) ∈ all_pairs two_roots →
       reachable (tree (register two_roots)) (0, 0, 0) p →
       ∃ a b, (a, b) ∈ es ∧ vs !! a = Some p ∧ vs !! b = Some c).
Proof.
  eexists _, _. split; [by vm_compute|].
  apply (path_union_edges_are_reachable_links 5 two_roots (0, 0, 0));
    by vm_compute.
Defined.

(** X5.  Paths of a single coordinate register nothing: when no path
    has two coordinates, [path_union] returns no vertex and no edge, and
    the root itself is absent from the vertex list. *)
Theorem path_union_single_coordinates
    (depth : nat) (paths : list (list coord)) (root : coord) :
  root_of paths = Ok root → all_pairs paths = [] →
  path_union (S depth) paths = Ok ([], []).
Proof.
  intros Hr Hnil. unfold path_union, path_union_lists. rewrite Hr. cbn.
  unfold register. rewrite register_foldl, Hnil. cbn.
  unfold children. rewrite lookup_empty. cbn. by rewrite elements_empty.
Qed.

(** Two paths of one coordinate each. *)
Lemma path_union_single_coordinates_witness :
  path_union 1 [[(4, 5, 6)]; [(7, 8, 9)]] = Ok ([], []).
Proof. by apply (path_union_single_coordinates 0 _ (4, 5, 6)). Defined.

(** ** One path without repetition *)

Lemma first_seen_chain (pre : list coord) (x : coord) (l : list coord) :
  NoDup (pre ++ x :: l) →
  foldl see (pre ++ [x]) (endpoints (consecutive (x :: l))) = pre ++ x :: l.
Proof.
  revert pre x. induction l as [|y l IH]; intros pre x Hnd; [done|].
  change (endpoints (consecutive (x :: y :: l)))
    with (x :: y :: endpoints (consecutive (y :: l))).
  cbn [foldl]. unfold see at 3. rewrite decide_True by set_solver.
  unfold see at 2. rewrite decide_False.
  - rewrite IH; rewrite <- app_assoc; done.
  - apply NoDup_app in Hnd as (_ & Hsep & Hxl).
    apply NoDup_cons in Hxl as [Hx _].
    intros [Hy | ->%list_elem_of_singleton]%elem_of_app.
    + apply (Hsep y Hy). right; left.
    + apply Hx. left.
Qed.

Lemma chain_ids ids (l : list coord) (k : nat) :
  (∀ (i : nat) v, l !! i = Some v → idx ids v = (k + i)%nat) →
  id_edge ids <$> consecutive l = (λ i, (i, S i)) <$> seq k (length l - 1).
Proof.
  revert k. induction l as [|a [|b tl] IH]; intros k Hidx; [done | done |].
  change (consecutive (a :: b :: tl)) with ((a, b) :: consecutive (b :: tl)).
  replace (length (a :: b :: tl) - 1)%nat with (S (length (b :: tl) - 1))
    by (cbn; lia).
  cbn [seq fmap list_fmap]. rewrite <- (IH (S k)).
  - unfold id_edge at 1. cbn [fst snd].
    rewrite (Hidx 0%nat a eq_refl), (Hidx 1%nat b eq_refl).
    by replace (k + 0)%nat with k by lia; replace (k + 1)%nat with (S k) by lia.
  - intros i v Hv. rewrite (Hidx (S i) v Hv). lia.
Qed.

Section Chain.
Variable path : list coord.
Hypothesis Hnd : NoDup path.

Abbreviation tc := (tree (register [path])).

Lemma chain_children (i : nat) (x c : coord) :
  path !! i = Some x → c ∈ children tc x ↔ path !! S i = Some c.
Proof.
  intros Hx. rewrite (inv_adj _ _ (register_inv [path])), elem_of_all_pairs.
  split.
  - intros (p & j & ->%list_elem_of_singleton & Hj & HSj).
    by rewrite <- (NoDup_lookup _ _ _ _ Hnd Hj Hx).
  - intros Hc. exists path, i. by rewrite list_elem_of_singleton.
Qed.

Lemma chain_walk (d i : nat) (x : coord) :
  path !! i = Some x → (length path ≤ d + i)%nat →
  walk_edges tc d x = Some (consecutive (drop i path)).
Proof.
  revert i x. induction d as [|d IH]; intros i x Hx Hlen.
  - apply lookup_lt_Some in Hx. lia.
  - cbn [walk_edges]. rewrite (drop_S _ _ _ Hx).
    destruct (path !! S i) as [y|] eqn:Hy.
    + assert (children tc x = {[y]}) as ->.
      { apply set_eq. intros c. rewrite (chain_children i x c Hx).
        rewrite elem_of_singleton. split; [congruence | by intros ->]. }
      rewrite elements_singleton. cbn [each_edge].
      rewrite (IH (S i) y Hy) by lia. cbn.
      rewrite (drop_S _ _ _ Hy), app_nil_r. done.
    + assert (children tc x = ∅) as ->.
      { apply set_eq. intros c. rewrite (chain_children i x c Hx).
        split; [congruence | by intros ?%not_elem_of_empty]. }
      rewrite elements_empty. cbn.
      apply lookup_ge_None in Hy. by rewrite drop_ge.
Qed.

Lemma chain_vertices : (2 ≤ length path)%nat → vertices (register [path]) = path.
Proof.
  intros Hlen. rewrite register_first_seen.
  destruct path as [|x [|y l]] eqn:Hp; [cbn in Hlen; lia..|].
  unfold all_pairs. cbn [fmap list_fmap mjoin list_join]. rewrite app_nil_r.
  assert (Hnd' : NoDup ([] ++ x :: y :: l)) by exact Hnd.
  pose proof (first_seen_chain [] x (y :: l) Hnd') as Hfs.
  unfold first_seen.
  change (endpoints (consecutive (x :: y :: l)))
    with (x :: y :: endpoints (consecutive (y :: l))) in *.
  cbn [foldl app] in *.
  replace (see [] x) with [x] by done.
  replace (see [x] x) with [x] in Hfs; [done|].
  unfold see. rewrite decide_True; [done | left].
Qed.

End Chain.

(** X6.  One path without a repeated coordinate, of at least two
    coordinates and no longer than the recursion depth, comes back as
    it is: the vertices are the coordinates of the path in order and the
    edges join each vertex to the next, with no branch. *)
Theorem path_union_chain (depth : nat) (path : list coord) :
  NoDup path → (2 ≤ length path ≤ depth)%nat →
  path_union depth [path] =
    Ok (pack_vertices path, pack_edges (chain_edges (length path))).
Proof.
  intros Hnd [Hlen Hdepth]. apply path_union_cases.
  pose proof (path_union_lists_cases depth [path]) as Hc. cbn zeta in Hc.
  assert (∃ root tl, path = root :: tl) as (root & tl & Hp).
  { destruct path; [cbn in Hlen; lia | eauto]. }
  assert (Hr : root_of [path] = Ok root) by by rewrite Hp.
  assert (H0 : path !! 0%nat = Some root) by by rewrite Hp.
  rewrite Hr in Hc.
  rewrite (chain_walk path Hnd depth 0 root H0) in Hc by lia.
  rewrite drop_0, chain_vertices in Hc by done. rewrite Hc. do 2 f_equal.
  apply chain_ids. intros i v Hv. cbn.
  unfold idx. replace (tree_id (register [path]) !! v) with (Some i); [done|].
  symmetry. apply (inv_ids _ _ (register_inv [path])).
  by rewrite chain_vertices.
Qed.

(** A straight path of three voxels. *)
Lemma path_union_chain_witness :
  path_union 3 [[(0, 0, 0); (1, 0, 0); (2, 0, 0)]] =
    Ok ([0; 0; 0; 1; 0; 0; 2; 0; 0], [0; 1; 1; 2]).
Proof.
  apply (path_union_chain 3 [(0, 0, 0); (1, 0, 0); (2, 0, 0)]).
  - apply (bool_decide_unpack _). by vm_compute.
  - cbn. lia.
Defined.

End PathUnionMore.

(** * Further properties of TEASAR *)
Module TeasarMore.
Import PathUnion Teasar.

(** ** The order of array entries *)

Lemma fval_le_refl (x : fval) : fval_le x x.
Proof.
  destruct x as [a|]; unfold fval_le; cbn; [|done].
  apply negb_false_iff, Qle_bool_iff, Qle_refl.
Qed.

Lemma fval_le_trans (x y z : fval) : fval_le x y → fval_le y z → fval_le x z.
Proof.
  unfold fval_le. destruct x as [a|], y as [b|], z as [c|]; cbn; try done.
  rewrite !negb_false_iff, !Qle_bool_iff. apply Qle_trans.
Qed.

Lemma fval_gt_le (x y : fval) : fval_gt y x = true → fval_le x y.
Proof.
  unfold fval_le. destruct x as [a|], y as [b|]; cbn; try done.
  rewrite negb_true_iff, negb_false_iff, Qle_bool_iff. intros Hn.
  apply Qlt_le_weak, Qnot_le_lt. intros Hle%Qle_bool_iff. congruence.
Qed.

Lemma fval_max_l (x y : fval) : fval_le x (fval_max x y).
Proof.
  unfold fval_max. destruct (fval_gt y x) eqn:Hgt;
    [by apply fval_gt_le | apply fval_le_refl].
Qed.

Lemma fval_max_r (x y : fval) : fval_le y (fval_max x y).
Proof.
  unfold fval_max. destruct (fval_gt y x) eqn:Hgt; [apply fval_le_refl | done].
Qed.

Lemma foldl_max_init (x : fval) (xs : list fval) :
  fval_le x (foldl fval_max x xs).
Proof.
  revert x. induction xs as [|z xs IH]; intros x; cbn; [apply fval_le_refl|].
  eapply fval_le_trans; [apply fval_max_l | apply IH].
Qed.

Lemma foldl_max_elem (x : fval) (xs : list fval) (y : fval) :
  y ∈ xs → fval_le y (foldl fval_max x xs).
Proof.
  revert x. induction xs as [|z xs IH]; intros x Hy; [by apply elem_of_nil in Hy|].
  cbn. apply elem_of_cons in Hy as [-> | Hy]; [|by apply IH].
  eapply fval_le_trans; [apply fval_max_r | apply foldl_max_init].
Qed.

(** [np.max] is an upper bound of every entry. *)
Lemma np_max_ge (DBF : gmap coord fval) (v : coord) (x : fval) :
  DBF !! v = Some x → ∃ m, np_max DBF = Ok m ∧ fval_le x m.
Proof.
  intros Hv. unfold np_max.
  assert (Hx : x ∈ (map_to_list DBF).*2).
  { apply list_elem_of_fmap. exists (v, x). split; [done|].
    by apply elem_of_map_to_list. }
  destruct ((map_to_list DBF).*2) as [|y ys]; [by apply elem_of_nil in Hx|].
  eexists. split; [done|].
  apply elem_of_cons in Hx as [-> | Hx];
    [apply foldl_max_init | by apply foldl_max_elem].
Qed.

Lemma fval_gt_le_trans (x m b : fval) :
  fval_gt x b = true → fval_le x m → fval_gt m b = true.
Proof.
  unfold fval_le. destruct x as [a|], m as [c|], b as [d|]; cbn; try done.
  rewrite !negb_true_iff, negb_false_iff, Qle_bool_iff.
  intros Hn Hac. destruct (Qle_bool c d) eqn:Hcd; [|done].
  apply Qle_bool_iff in Hcd.
  assert (Had : Qle_bool a d = true) by (apply Qle_bool_iff; by eapply Qle_trans).
  congruence.
Qed.

(** X7.  One entry of [DBF] above [max_boundary_distance] is enough for
    the policy skip: whatever the solver and the other arguments,
    [TEASAR] returns the empty skeleton and leaves [DBF] as it was. *)
Theorem teasar_skips_above_threshold
    (S : Solver) (fuel depth : nat) (DBF : gmap coord fval)
    (scale const max_boundary_distance : Q) (v : coord) (x : fval) :
  DBF !! v = Some x → fval_gt x (Fin max_boundary_distance) = true →
  TEASAR S fuel depth DBF scale const max_boundary_distance
    = (DBF, Some (Ok Skeleton_new)).
Proof.
  intros Hv Hgt. destruct (np_max_ge DBF v x Hv) as (m & Hm & Hle).
  unfold TEASAR. rewrite Hm.
  destruct (first_label S (foreground DBF)); [|done].
  by rewrite (fval_gt_le_trans x m _ Hgt Hle).
Qed.

(** [blob2] holds 6000, above the threshold 5000. *)
Lemma teasar_skips_above_threshold_witness :
  TEASAR plain_solver 5 5 blob2 1 0 5000 = (blob2, Some (Ok Skeleton_new)).
Proof.
  apply (teasar_skips_above_threshold plain_solver 5 5 blob2 1 0 5000
           (1, 0, 0) (Fin 6000)); by vm_compute.
Defined.

(** ** The array after a call *)

Lemma zero_to_inf_nonzero (x : fval) : is_zero (zero_to_inf x) = false.
Proof. unfold zero_to_inf. by destruct (is_zero x) eqn:Hz. Qed.

(** The array a call leaves behind is the old one or the old one with
    its zeros replaced. *)
Lemma teasar_state (S : Solver) (fuel depth : nat) (DBF : gmap coord fval)
    (scale const mbd : Q) :
  let r := TEASAR S fuel depth DBF scale const mbd in
  (r.1 = DBF ∧ (r.2 = Some (Ok Skeleton_new) ∨ ∃ e, r.2 = Some (Raise e))) ∨
  (r.1 = zero_to_inf <$> DBF ∧
   ∀ s, r.2 = Some (Ok s) →
     ∃ paths, assemble (zero_to_inf <$> DBF) depth paths = Ok s).
Proof.
  cbn zeta. unfold TEASAR. destruct (np_max DBF) as [m|e]; [|left; eauto].
  destruct (first_label S (foreground DBF)) as [any|]; [|left; eauto].
  destruct (fval_gt m (Fin mbd)); [left; eauto|]. right. cbn [fst snd].
  split; [done|]. intros s.
  destruct (extract _ _ _ _ _ _ _ _ _ _) as [[l paths]|]; [|done].
  intros [= Hs]. eauto.
Qed.

(** X8.  [TEASAR] cannot be run twice on one array.  Once a call has
    changed [DBF], the array holds [+inf] where it held zero, and any
    further call on it, with any solver, scale and constant and any
    finite [max_boundary_distance], takes the policy skip and returns
    the empty skeleton. *)
Theorem teasar_second_call_is_skipped
    (S S' : Solver) (fuel depth fuel' depth' : nat) (DBF : gmap coord fval)
    (scale const mbd scale' const' mbd' : Q) :
  let after := (TEASAR S fuel depth DBF scale const mbd).1 in
  after ≠ DBF →
  TEASAR S' fuel' depth' after scale' const' mbd' = (after, Some (Ok Skeleton_new)).
Proof.
  cbn zeta. intros Hne.
  destruct (teasar_state S fuel depth DBF scale const mbd) as [[Heq _] | [Heq _]];
    [done|].
  rewrite Heq in *.
  destruct (decide (map_Forall (λ _ x, is_zero x = false) DBF)) as [Hall | Hex].
  - destruct Hne. apply map_eq. intros v. rewrite lookup_fmap.
    destruct (DBF !! v) as [x|] eqn:Hv; [|done]. cbn. unfold zero_to_inf.
    by rewrite (Hall v x Hv).
  - apply map_not_Forall in Hex as (v & x & Hv & Hz); [|apply _].
    apply (teasar_skips_above_threshold S' fuel' depth' _ scale' const' mbd' v PInf);
      [|done].
    rewrite lookup_fmap, Hv. cbn. unfold zero_to_inf.
    by destruct (is_zero x).
Qed.

(** A second call on [row4] after a first one that ran. *)
Lemma teasar_second_call_is_skipped_witness :
  TEASAR plain_solver 9 9 (TEASAR plain_solver 5 5 row4 1 0 5000).1 2 1 7000
    = ((TEASAR plain_solver 5 5 row4 1 0 5000).1, Some (Ok Skeleton_new)).
Proof.
  apply (teasar_second_call_is_skipped plain_solver plain_solver 5 5 9 9 row4).
  intros Heq. apply (f_equal (λ m, m !! (0, 0, 0))) in Heq.
  vm_compute in Heq. discriminate.
Defined.

(** ** The skeleton returned *)

Lemma sample_lookup (DBF : gmap coord fval) (vs : list coord) rs :
  sample DBF vs = Ok rs →
  length rs = length vs ∧
  ∀ (i : nat) v, vs !! i = Some v →
    ∃ r, rs !! i = Some r ∧ DBF !! v = Some r.
Proof.
  revert rs. induction vs as [|v vs IH]; intros rs; cbn.
  - intros [= <-]. split; [done|]. by intros i v ?.
  - destruct (DBF !! v) as [x|] eqn:Hv; [|done].
    destruct (sample DBF vs) as [rest|]; [|done]. cbn. intros [= <-].
    destruct (IH rest eq_refl) as [Hlen Hi]. split; [cbn; by rewrite Hlen|].
    intros [|i] w Hw; [|by apply Hi]. injection Hw as <-. eauto.
Qed.

(** X9.  A skeleton [TEASAR] returns carries one radius per vertex:
    the radius of a vertex is the entry of [DBF], as the call leaves it,
    at the voxel of that vertex, and it is never zero. *)
Theorem teasar_radii_sampled
    (S : Solver) (fuel depth : nat) (DBF : gmap coord fval)
    (scale const mbd : Q) (s : Skeleton) :
  let r := TEASAR S fuel depth DBF scale const mbd in
  r.2 = Some (Ok s) →
  length (radii s) = length (nodes s) ∧
  ∀ (i : nat) p, nodes s !! i = Some p →
    ∃ v x, p = to_position v ∧ radii s !! i = Some x ∧
           r.1 !! v = Some x ∧ is_zero x = false.
Proof.
  cbn zeta. intros Hs.
  destruct (teasar_state S fuel depth DBF scale const mbd)
    as [[_ [Hempty | [e He]]] | [Heq Hasm]].
  - rewrite Hempty in Hs. injection Hs as <-. split; [done|]. by intros i p ?.
  - rewrite He in Hs. done.
  - rewrite Heq. destruct (Hasm s Hs) as [paths Hp]. unfold assemble in Hp.
    destruct (path_union depth paths) as [arrays|]; [|done]. cbn in Hp.
    destruct (sample _ (rows3 arrays.1)) as [rs|] eqn:Hrs; [|done].
    cbn in Hp. injection Hp as <-. cbn.
    destruct (sample_lookup _ _ _ Hrs) as [Hlen Hi]. split.
    + by rewrite length_fmap.
    + intros i p Hp. rewrite list_lookup_fmap in Hp.
      destruct (rows3 arrays.1 !! i) as [v|] eqn:Hv; [|done].
      injection Hp as <-. destruct (Hi i v Hv) as (x & Hx & Hvx).
      exists v, x. split; [done|]. split; [done|]. split; [done|].
      rewrite lookup_fmap in Hvx. destruct (DBF !! v) as [x0|]; [|done].
      injection Hvx as <-. apply zero_to_inf_nonzero.
Qed.

(** The skeleton of [row4] with balls of radius zero. *)
Lemma teasar_radii_sampled_witness :
  ∃ s, (TEASAR plain_solver 5 5 row4 0 0 5000).2 = Some (Ok s) ∧
       length (radii s) = length (nodes s) ∧
       ∀ (i : nat) p, nodes s !! i = Some p →
         ∃ v x, p = to_position v ∧ radii s !! i = Some x ∧
                (TEASAR plain_solver 5 5 row4 0 0 5000).1 !! v = Some x ∧
                is_zero x = false.
Proof.
  exists (MkSkeleton [(3, 0, 0)%Q; (2, 0, 0)%Q; (1, 0, 0)%Q] [(0, 1); (0, 2)]
                     [Fin 1; Fin 1; Fin 1]).
  split; [by vm_compute|].
  apply (teasar_radii_sampled plain_solver 5 5 row4 0 0 5000). by vm_compute.
Defined.

(** ** The paths of the extraction loop *)
Section Paths.
Variable S : Solver.
Variables PDRF DBF : gmap coord fval.
Variable root : coord.
Variables scale const : Q.

Abbreviation run := (extract S PDRF DBF root scale const).
Abbreviation ball := (λ labels path, roll_invalidation_ball labels DBF path scale const).

Lemma roll_subset (labels : gset coord) (path : list coord) :
  (ball labels path).2 ⊆ labels.
Proof. cbn. by intros u [Hu _]%elem_of_difference. Qed.

Lemma solver_path_mono (l1 l2 : gset coord) (path : list coord) :
  l1 ⊆ l2 → solver_path S PDRF root l1 path → solver_path S PDRF root l2 path.
Proof.
  intros Hsub (l & Hl & Hne & ->). exists l. split; [by etrans | done].
Qed.

Lemma extract_appends (fuel : nat) (labels : gset coord)
    (paths : list (list coord)) out :
  run fuel labels (Z.of_nat (size labels)) paths = Some out →
  ∃ new, out.2 = paths ++ new ∧
         Forall (solver_path S PDRF root labels) new ∧
         (labels ≠ ∅ → new ≠ []).
Proof.
  revert labels paths. induction fuel as [|fuel IH]; intros labels paths;
    cbn [extract]; case_decide as Hpos; try done.
  - intros [= <-]. exists []. split; [by rewrite app_nil_r|]. split; [done|].
    intros Hne. destruct Hne. apply leibniz_equiv, size_empty_inv. lia.
  - rewrite TeasarFacts.roll_count. intros Hrun.
    assert (Hne : labels ≠ ∅) by (intros ->; rewrite size_empty in Hpos; lia).
    apply IH in Hrun as (new & Hout & Hall & _).
    exists (dijkstra S PDRF root (find_target S labels PDRF) :: new).
    split; [by rewrite Hout, <- app_assoc|]. split; [|done].
    constructor; [by exists labels|].
    eapply Forall_impl; [exact Hall|]. intros p.
    apply solver_path_mono, roll_subset.
  - intros [= <-]. exists []. split; [by rewrite app_nil_r|]. split; [done|].
    intros Hne. destruct Hne. apply leibniz_equiv, size_empty_inv. lia.
Qed.


Lemma elem_of_mask_after (paths : list (list coord)) (labels : gset coord)
    (u : coord) :
  u ∈ mask_after DBF scale const labels paths ↔
  u ∈ labels ∧ Forall (λ path, ¬ hit DBF scale const path u) paths.
Proof.
  revert labels. induction paths as [|path paths IH]; intros labels.
  - cbn. split; [by intros ? | by intros [? _]].
  - change (mask_after DBF scale const labels (path :: paths))
      with (mask_after DBF scale const (ball labels path).2 paths).
    rewrite IH, Forall_cons. cbn.
    rewrite elem_of_difference, elem_of_filter. tauto.
Qed.

Lemma extract_turns (fuel : nat) (labels : gset coord)
    (paths : list (list coord)) out :
  run fuel labels (Z.of_nat (size labels)) paths = Some out →
  ∃ new, out.2 = paths ++ new ∧
         ∀ (i : nat) path, new !! i = Some path →
           let mask := mask_after DBF scale const labels (take i new) in
           mask ≠ ∅ ∧ path = dijkstra S PDRF root (find_target S mask PDRF).
Proof.
  revert labels paths. induction fuel as [|fuel IH]; intros labels paths;
    cbn [extract]; case_decide as Hpos; try done.
  - intros [= <-]. exists []. split; [by rewrite app_nil_r | done].
  - rewrite TeasarFacts.roll_count. intros Hrun.
    assert (Hne : labels ≠ ∅) by (intros ->; rewrite size_empty in Hpos; lia).
    apply IH in Hrun as (new & Hout & Hturn).
    exists (dijkstra S PDRF root (find_target S labels PDRF) :: new).
    split; [by rewrite Hout, <- app_assoc|].
    intros [|i] path Hi.
    + injection Hi as <-. by split.
    + exact (Hturn i path Hi).
  - intros [= <-]. exists []. split; [by rewrite app_nil_r | done].
Qed.

End Paths.

(** X10.  Every path the extraction loop emits is the solver's shortest
    path from the one root to the solver's target for the mask of that
    turn.  The mask of turn [i] is the initial mask after the calls of
    [roll_invalidation_ball] for the paths emitted before; it is not
    empty, and it holds the voxels of the initial mask that lie in no
    ball of an earlier path.  The loop emits at least one path when the
    initial mask is not empty. *)
Theorem teasar_paths_from_root (S : Solver) (PDRF DBF : gmap coord fval)
    (root : coord) (scale const : Q) (fuel : nat) (labels : gset coord) out :
  extract S PDRF DBF root scale const fuel labels (Z.of_nat (size labels)) []
    = Some out →
  (∀ (i : nat) path, out.2 !! i = Some path →
     let mask := mask_after DBF scale const labels (take i out.2) in
     mask ≠ ∅ ∧
     path = dijkstra S PDRF root (find_target S mask PDRF) ∧
     ∀ u, u ∈ mask ↔
          u ∈ labels ∧
          Forall (λ earlier, ¬ hit DBF scale const earlier u) (take i out.2)) ∧
  Forall (solver_path S PDRF root labels) out.2 ∧ (labels ≠ ∅ → out.2 ≠ []).
Proof.
  intros Hrun. split.
  - apply extract_turns in Hrun as (new & -> & Hturn).
    intros i path Hi. destruct (Hturn i path Hi) as [Hne Hpath].
    split; [exact Hne|]. split; [exact Hpath|].
    intros u. apply elem_of_mask_after.
  - by apply extract_appends in Hrun as (new & -> & Hall & Hne).
Qed.

(** The loop on [row4] with balls of radius zero. *)
Lemma teasar_paths_from_root_witness :
  ∃ out,
    extract plain_solver row4 (zero_to_inf <$> row4) (1, 0, 0) 0 0 3
      (foreground row4) (Z.of_nat (size (foreground row4))) [] = Some out ∧
    (∀ (i : nat) path, out.2 !! i = Some path →
       let mask := mask_after (zero_to_inf <$> row4) 0 0 (foreground row4)
                     (take i out.2) in
       mask ≠ ∅ ∧
       path = dijkstra plain_solver row4 (1, 0, 0)
                (find_target plain_solver mask row4) ∧
       ∀ u, u ∈ mask ↔
            u ∈ foreground row4 ∧
            Forall (λ earlier, ¬ hit (zero_to_inf <$> row4) 0 0 earlier u)
                   (take i out.2)) ∧
    Forall (solver_path plain_solver row4 (1, 0, 0) (foreground row4)) out.2 ∧
    (foreground row4 ≠ ∅ → out.2 ≠ []).
Proof.
  destruct (extract plain_solver row4 (zero_to_inf <$> row4) (1, 0, 0) 0 0 3
              (foreground row4) (Z.of_nat (size (foreground row4))) [])
    as [out|] eqn:Hrun; [|by vm_compute in Hrun].
  exists out. split; [done|].
  exact (teasar_paths_from_root plain_solver row4 (zero_to_inf <$> row4)
           (1, 0, 0) 0 0 3 (foreground row4) out Hrun).
Defined.



End TeasarMore.

(** * Further properties of the stage-2 merge *)
Module MergeMore.
Import SkeletonMergeTask.

(** ** Overlap detection *)

(** X12.  [find_paired_skeletons] returns the pairs of file names that
    stand at two positions [i < j] of the list and whose boxes
    intersect, and no other pair. *)
Theorem find_paired_skeletons_pairs
    (C : Collaborators) (filenames : list string) (f g : string) :
  (f, g) ∈ find_paired_skeletons C filenames ↔
  ∃ i j : nat, (i < j)%nat ∧ filenames !! i = Some f ∧ filenames !! j = Some g ∧
               Bbox_intersects (from_filename C f) (from_filename C g) = true.
Proof.
  induction filenames as [|h rest IH]; cbn [find_paired_skeletons].
  - split; [by intros ?%elem_of_nil | by intros (i & j & _ & ? & _)].
  - rewrite elem_of_app, IH, list_elem_of_fmap. split.
    + intros [(g' & [= -> ->] & Hg) | (i & j & Hij & Hi & Hj & Hx)].
      * apply list_elem_of_filter in Hg as [Hx [j Hj]%list_elem_of_lookup_1].
        exists 0%nat, (S j). split; [lia|]. done.
      * exists (S i), (S j). split; [lia|]. done.
    + intros ([|i] & j & Hij & Hi & Hj & Hx).
      * left. injection Hi as ->. exists g. split; [done|].
        destruct j as [|j]; [lia|]. apply list_elem_of_filter. split; [done|].
        by eapply list_elem_of_lookup_2.
      * right. destruct j as [|j]; [lia|]. exists i, j. split; [lia|]. done.
Qed.

(** ** Fusing *)

Lemma fuse_loop_parts (fusing : Skeleton) (offset : Z) (rest : list Skeleton) :
  let kept := filter has_edges rest in
  nodes (fuse_loop fusing offset rest) = nodes fusing ++ mjoin (nodes <$> kept) ∧
  radii (fuse_loop fusing offset rest) = radii fusing ++ mjoin (radii <$> kept) ∧
  length (edges (fuse_loop fusing offset rest)) =
    (length (edges fusing) + length (mjoin (edges <$> kept)))%nat.
Proof.
  cbn zeta. revert fusing offset.
  induction rest as [|skel rest IH]; intros fusing offset.
  - cbn. by rewrite !app_nil_r, Nat.add_0_r.
  - cbn [fuse_loop]. destruct (edges skel) as [|e es] eqn:He.
    + rewrite filter_cons_False by (unfold has_edges; by rewrite He; intros []).
      apply IH.
    + rewrite filter_cons_True by (unfold has_edges; by rewrite He).
      destruct (IH (MkSkeleton (nodes fusing ++ nodes skel)
                      (edges fusing ++ shift_edges offset (e :: es))
                      (radii fusing ++ radii skel))
                   (offset + Z.of_nat (length (nodes skel)))) as (Hn & Hr & Hl).
      rewrite Hn, Hr, Hl. cbn [nodes radii edges fmap list_fmap mjoin list_join].
      rewrite <- !app_assoc. split; [done|]. split; [done|].
      rewrite !length_app, He. unfold shift_edges. rewrite length_fmap.
      by rewrite Nat.add_assoc.
Qed.

Lemma kept_lengths (rest : list Skeleton) :
  Forall (λ s, length (radii s) = length (nodes s)) rest →
  length (mjoin (radii <$> filter has_edges rest)) =
  length (mjoin (nodes <$> filter has_edges rest)).
Proof.
  induction 1 as [|s l Hs _ IH]; [done|].
  rewrite filter_cons. case_decide; [|done].
  cbn [fmap list_fmap mjoin list_join]. rewrite !length_app.
  f_equal; [exact Hs | exact IH].
Qed.

(** X13.  Fusing keeps the first skeleton and, of the later ones, those
    that have an edge: their vertices and radii are appended in order
    and their edges are all kept, while a later skeleton without edges
    is dropped together with its vertices.  When every input has one
    radius per vertex, so has the result. *)
Theorem fuse_keeps_skeletons_with_edges (first : Skeleton) (rest : list Skeleton) :
  ∃ fused, fuse (first :: rest) = Ok fused ∧
    nodes fused = nodes first ++ mjoin (nodes <$> filter has_edges rest) ∧
    radii fused = radii first ++ mjoin (radii <$> filter has_edges rest) ∧
    length (edges fused) =
      (length (edges first) + length (mjoin (edges <$> filter has_edges rest)))%nat ∧
    (Forall (λ s, length (radii s) = length (nodes s)) (first :: rest) →
     length (radii fused) = length (nodes fused)).
Proof.
  eexists. split; [done|].
  destruct (fuse_loop_parts first 0 rest) as (Hn & Hr & Hl).
  split; [done|]. split; [done|]. split; [done|].
  intros Hall. rewrite Hn, Hr, !length_app. apply Forall_cons in Hall as [-> Hall].
  f_equal. by apply kept_lengths.
Qed.

(** ** Loading the fragments *)




(** ** Grouping the listing *)

Lemma group_add_keys (segid : Z) (f : string) (d : list (Z * list string)) (k : Z) :
  k ∈ (group_add segid f d).*1 ↔ k = segid ∨ k ∈ d.*1.
Proof.
  induction d as [|[k0 n0] d IH]; cbn [group_add].
  - cbn. rewrite list_elem_of_singleton, elem_of_nil. tauto.
  - case_decide as Heq; cbn [fmap list_fmap fst]; rewrite !elem_of_cons.
    + subst. tauto.
    + rewrite IH. tauto.
Qed.

Lemma group_add_NoDup (segid : Z) (f : string) (d : list (Z * list string)) :
  NoDup d.*1 → NoDup (group_add segid f d).*1.
Proof.
  induction d as [|[k0 n0] d IH]; cbn [group_add]; intros Hnd.
  - apply NoDup_singleton.
  - cbn [fmap list_fmap fst] in Hnd. apply NoDup_cons in Hnd as [Hk0 Hnd].
    case_decide as Heq; cbn [fmap list_fmap fst]; apply NoDup_cons.
    + done.
    + split; [|by apply IH]. rewrite group_add_keys. intros [-> | ?]; done.
Qed.

(** The group of [segid] grows by [f]; a new group is [f] alone. *)
Lemma group_add_same (segid : Z) (f : string) (d : list (Z * list string)) names :
  NoDup d.*1 →
  (segid, names) ∈ group_add segid f d ↔
  (∃ old, (segid, old) ∈ d ∧ names = (old ++ [f])) ∨ ((segid ∉ d.*1) ∧ names = [f]).
Proof.
  induction d as [|[k0 n0] d IH]; cbn [group_add]; intros Hnd.
  - rewrite list_elem_of_singleton. split.
    + intros [= ->]. right. split; [by intros ?%elem_of_nil | done].
    + intros [(old & ?%elem_of_nil & _) | [_ ->]]; done.
  - cbn [fmap list_fmap fst] in Hnd. apply NoDup_cons in Hnd as [Hk0 Hnd].
    assert (Hkey : ∀ n, (k0, n) ∉ d).
    { intros n Hin. apply Hk0, list_elem_of_fmap. by exists (k0, n). }
    case_decide as Heq.
    + subst k0. rewrite elem_of_cons. split.
      * intros [[= ->] | Hin]; [|by apply Hkey in Hin].
        left. exists n0. split; [left | done].
      * intros [(old & Hold & ->) | [Hn _]].
        -- apply elem_of_cons in Hold as [[= ->] | Hin]; [by left | by apply Hkey in Hin].
        -- destruct Hn. left.
    + rewrite elem_of_cons, (IH Hnd). cbn [fmap list_fmap fst]. split.
      * intros [[= ? _] | [(old & Hold & ->) | [Hn ->]]]; [done | |].
        -- left. exists old. split; [by right | done].
        -- right. split; [|done]. rewrite elem_of_cons. intros [? | ?]; done.
      * intros [(old & Hold & ->) | [Hn ->]].
        -- apply elem_of_cons in Hold as [[= ? _] | Hin]; [done|].
           right; left. by exists old.
        -- right; right. split; [|done]. intros Hin. apply Hn. by right.
Qed.

Lemma group_add_other (segid k : Z) (f : string) (d : list (Z * list string)) names :
  k ≠ segid → (k, names) ∈ group_add segid f d ↔ (k, names) ∈ d.
Proof.
  intros Hne. induction d as [|[k0 n0] d IH]; cbn [group_add].
  - rewrite list_elem_of_singleton, elem_of_nil. split; [by intros [= ? _] | done].
  - case_decide as Heq; rewrite !elem_of_cons.
    + subst k0. split; (intros [[= ? _] | ?]; [done | by right]).
    + by rewrite IH.
Qed.

Lemma files_of_snoc (C : Collaborators) (k : Z) (listing : list string) (f : string) :
  files_of C k (listing ++ [f]) =
  files_of C k listing ++ (if decide (segid_search C f = Some k) then [f] else []).
Proof. unfold files_of. by rewrite filter_app, (filter_singleton _ f []). Qed.

Lemma grouped_absent (C : Collaborators) (listing : list string) d (k : Z) :
  grouped C listing d → k ∉ (d.*1) ↔ files_of C k listing = [].
Proof.
  intros [Hnd Hmem]. split.
  - intros Hk. destruct (files_of C k listing) as [|x l] eqn:Hf; [done|].
    destruct Hk. apply list_elem_of_fmap. exists (k, x :: l). split; [done|].
    apply Hmem. by rewrite Hf.
  - intros Hf ([k' n] & Hkk & Hin)%list_elem_of_fmap. cbn in Hkk. subst k'.
    apply Hmem in Hin as [-> Hn]. done.
Qed.

Lemma grouped_step (C : Collaborators) (listing : list string) (f : string) d :
  grouped C listing d →
  grouped C (listing ++ [f])
    (match segid_search C f with
     | None => d
     | Some segid => group_add segid f d
     end).
Proof.
  intros Hg. pose proof Hg as [Hnd Hmem].
  destruct (segid_search C f) as [segid|] eqn:Hs.
  - split; [by apply group_add_NoDup|]. intros k names. rewrite files_of_snoc, Hs.
    destruct (decide (k = segid)) as [-> | Hk].
    + rewrite decide_True by done. rewrite group_add_same by done. split.
      * intros [(old & [-> Hn]%Hmem & ->) | [Hnot ->]].
        -- split; [done|]. by destruct (files_of C segid listing).
        -- apply (grouped_absent C listing d segid Hg) in Hnot. by rewrite Hnot.
      * intros [-> _]. destruct (files_of C segid listing) as [|x l] eqn:Hf.
        -- right. split; [|done]. by apply (grouped_absent C listing d segid Hg).
        -- left. exists (x :: l). split; [|done]. apply Hmem. by rewrite Hf.
    + rewrite decide_False by congruence. rewrite app_nil_r.
      rewrite group_add_other by done. apply Hmem.
  - split; [done|]. intros k names. rewrite files_of_snoc, Hs.
    rewrite decide_False by done. rewrite app_nil_r. apply Hmem.
Qed.

Lemma grouped_foldl (C : Collaborators) (l0 l : list string) d :
  grouped C l0 d →
  grouped C (l0 ++ l)
    (foldl (λ skeletons filename,
              match segid_search C filename with
              | None => skeletons
              | Some segid => group_add segid filename skeletons
              end) d l).
Proof.
  revert l0 d. induction l as [|f l IH]; intros l0 d Hg.
  - by rewrite app_nil_r.
  - cbn [foldl].
    replace (l0 ++ f :: l) with ((l0 ++ [f]) ++ l) by (by rewrite <- app_assoc).
    apply IH. by apply grouped_step.
Qed.

(** X15.  [get_filenames_subset] groups the listing by segment id: no id
    has two groups, and the group of an id holds the files in which the
    pattern finds that id, all of them, once each, in listing order; an
    id no file carries has no group, and a file without an id is in no
    group. *)
Theorem get_filenames_subset_groups
    (C : Collaborators) (listing : list string) :
  NoDup (get_filenames_subset C listing).*1 ∧
  ∀ segid names,
    (segid, names) ∈ get_filenames_subset C listing ↔
    names = files_of C segid listing ∧ names ≠ [].
Proof.
  destruct (grouped_foldl C [] listing []) as [Hnd Hmem]; [|done].
  split; [constructor|]. intros k names. split; [by intros ?%elem_of_nil|].
  by intros [-> ?].
Qed.

(** Every file with an id is appended to one group. *)
Lemma group_add_join (segid : Z) (f : string) (d : list (Z * list string)) :
  mjoin (group_add segid f d).*2 ≡ₚ mjoin d.*2 ++ [f].
Proof.
  induction d as [|[k0 n0] d IH]; cbn [group_add]; [done|].
  case_decide; cbn [fmap list_fmap snd mjoin list_join].
  - rewrite <- !app_assoc. apply Permutation_app_head, Permutation_app_comm.
  - rewrite IH. by rewrite app_assoc.
Qed.

Lemma get_filenames_subset_join (C : Collaborators) (listing : list string) :
  mjoin (get_filenames_subset C listing).*2 ≡ₚ matched C listing.
Proof.
  unfold get_filenames_subset.
  assert (H : ∀ l0 d, mjoin d.*2 ≡ₚ matched C l0 →
    mjoin (foldl (λ skeletons filename,
              match segid_search C filename with
              | None => skeletons
              | Some segid => group_add segid filename skeletons
              end) d listing).*2 ≡ₚ matched C (l0 ++ listing)).
  { induction listing as [|f l IH]; intros l0 d Hd; [by rewrite app_nil_r|].
    cbn [foldl].
    replace (l0 ++ f :: l) with ((l0 ++ [f]) ++ l) by (by rewrite <- app_assoc).
    apply IH. unfold matched. rewrite filter_app, (filter_singleton _ f []).
    destruct (segid_search C f) as [segid|] eqn:Hs.
    - rewrite decide_True by eauto. by rewrite group_add_join, Hd.
    - rewrite decide_False by (by intros [? ?]). rewrite app_nil_r. exact Hd. }
  by apply (H [] []).
Qed.

Lemma merge_all_ok (C : Collaborators) (skels : list (Z * list string)) log :
  merge_all C skels = (log, None) → uploaded log = skels.*1 ∧ deleted log = [].
Proof.
  revert log. induction skels as [|[segid frags] skels IH]; intros log;
    cbn [merge_all].
  - by intros [= <-].
  - destruct (merge_one C segid frags) as [skeleton|e]; [|done].
    destruct (merge_all C skels) as [log' out'] eqn:Hrest. cbn [fst snd].
    intros [= <- ->]. destruct (IH _ eq_refl) as [Hu Hd].
    change (uploaded (Upload segid skeleton :: PutJson segid (basename C <$> frags) :: log'))
      with (segid :: uploaded log').
    change (deleted (Upload segid skeleton :: PutJson segid (basename C <$> frags) :: log'))
      with (deleted log').
    by rewrite Hu, Hd.
Qed.

Lemma deleted_deletes (groups : list (list string)) :
  deleted (DeleteFiles <$> groups) = mjoin groups.
Proof.
  induction groups as [|g gs IH]; [done|].
  change (deleted (DeleteFiles <$> g :: gs)) with (g ++ deleted (DeleteFiles <$> gs)).
  by rewrite IH.
Qed.

Lemma uploaded_deletes (groups : list (list string)) :
  uploaded (DeleteFiles <$> groups) = [].
Proof. unfold uploaded. by induction groups. Qed.

(** X16.  When [agglomerate] ends without an exception, it has uploaded
    each object id of the listing once, in the order of the groups, and
    the files it has deleted are the listed files that carry an id, each
    of them once, and no other file. *)
Theorem agglomerate_success
    (C : Collaborators) (listing : list string) log :
  agglomerate C listing = (log, None) →
  uploaded log = (get_filenames_subset C listing).*1 ∧
  NoDup (uploaded log) ∧
  deleted log ≡ₚ matched C listing.
Proof.
  unfold agglomerate, agglomerate_on.
  destruct (merge_all C (get_filenames_subset C listing)) as [log1 [e|]] eqn:Hm;
    [done|]. intros [= <-].
  destruct (merge_all_ok _ _ _ Hm) as [Hu Hd].
  assert (Hup : uploaded (log1 ++ Wait :: (DeleteFiles <$> (get_filenames_subset C listing).*2))
                = (get_filenames_subset C listing).*1).
  { unfold uploaded at 1. rewrite omap_app. fold (uploaded log1). rewrite Hu.
    change (omap _ (Wait :: ?l)) with (uploaded l).
    by rewrite uploaded_deletes, app_nil_r. }
  split; [done|]. split.
  - rewrite Hup. apply get_filenames_subset_groups.
  - unfold deleted at 1. rewrite omap_app, join_app. fold (deleted log1). rewrite Hd.
    change (mjoin (omap _ (Wait :: ?l))) with (deleted l).
    rewrite deleted_deletes. apply get_filenames_subset_join.
Qed.

(** A batch of two objects and three fragments. *)
Lemma agglomerate_success_witness :
  ∃ log,
    agglomerate demo [file_a; file_c; file_b] = (log, None) ∧
    uploaded log = (get_filenames_subset demo [file_a; file_c; file_b]).*1 ∧
    NoDup (uploaded log) ∧
    deleted log ≡ₚ matched demo [file_a; file_c; file_b].
Proof.
  destruct (agglomerate demo [file_a; file_c; file_b]) as [log out] eqn:Hrun.
  assert (out = None) as -> by (by vm_compute in Hrun; injection Hrun as _ <-).
  exists log. split; [done|].
  exact (agglomerate_success demo [file_a; file_c; file_b] log Hrun).
Defined.

(** ** The size of the point cloud *)

Lemma point_cloud_found (C : Collaborators) (segid : Z) (frags : list string) :
  get_point_cloud C segid frags =
    match found C segid frags with
    | [] => []
    | _ :: _ => unique_axis0 (sort_axis0 (found C segid frags))
    end.
Proof.
  unfold get_point_cloud, found. cbn zeta.
  assert (H : ∀ acc,
    foldl (λ ptcloud frag, ptcloud ++ argwhere (read_volume C (from_filename C frag)) segid)
          acc frags =
    acc ++ mjoin ((λ frag, argwhere (read_volume C (from_filename C frag)) segid) <$> frags)).
  { induction frags as [|f fs IH]; intros acc; cbn [foldl fmap list_fmap mjoin list_join].
    - by rewrite app_nil_r.
    - by rewrite IH, app_assoc. }
  rewrite (H []). cbn [app].
  by destruct (mjoin _).
Qed.

Lemma squeeze_length (rows : list coord) : (length (squeeze rows) ≤ length rows)%nat.
Proof.
  induction rows as [|a [|b tl] IH]; [done | done |].
  change (squeeze (a :: b :: tl))
    with (if decide (a = b) then squeeze (b :: tl) else a :: squeeze (b :: tl)).
  case_decide; cbn [length] in *; lia.
Qed.

Lemma squeeze_nonempty (rows : list coord) : rows ≠ [] → squeeze rows ≠ [].
Proof.
  induction rows as [|a [|b tl] IH]; [done | done |]. intros _.
  change (squeeze (a :: b :: tl))
    with (if decide (a = b) then squeeze (b :: tl) else a :: squeeze (b :: tl)).
  case_decide; [by apply IH | done].
Qed.

Lemma squeeze_subset (rows : list coord) (p : coord) : p ∈ squeeze rows → p ∈ rows.
Proof.
  induction rows as [|a [|b tl] IH]; [done | done |].
  change (squeeze (a :: b :: tl))
    with (if decide (a = b) then squeeze (b :: tl) else a :: squeeze (b :: tl)).
  case_decide.
  - intros Hp. right. by apply IH.
  - intros [-> | Hp]%elem_of_cons; [left | right; by apply IH].
Qed.

Lemma sort_axis0_length (rows : list coord) : length (sort_axis0 rows) = length rows.
Proof.
  unfold sort_axis0. cbn zeta. rewrite !length_zip_with.
  rewrite !(Permutation_length (merge_sort_Permutation _ _)), !length_fmap.
  unfold coord. lia.
Qed.

Lemma sort_axis0_columns (rows : list coord) (x y z : Z) :
  (x, y, z) ∈ sort_axis0 rows → x ∈ rows.*1.*1 ∧ y ∈ rows.*1.*2 ∧ z ∈ rows.*2.
Proof.
  unfold sort_axis0. cbn zeta. intros Hin.
  pose proof (elem_of_zip_l _ _ _ _ Hin) as Hxy.
  pose proof (elem_of_zip_r _ _ _ _ Hin) as Hz.
  pose proof (elem_of_zip_l _ _ _ _ Hxy) as Hx.
  pose proof (elem_of_zip_r _ _ _ _ Hxy) as Hy.
  by rewrite !merge_sort_Permutation in Hx, Hy, Hz.
Qed.

(** X17.  The point cloud has no more points than the cutouts hold voxels
    of the object, and is empty exactly when they hold none; each
    coordinate of a returned point is the coordinate, on the same axis, of
    some voxel that holds the id. *)
Theorem get_point_cloud_bounds
    (C : Collaborators) (segid : Z) (frags : list string) :
  let cloud := get_point_cloud C segid frags in
  let voxels := found C segid frags in
  (length cloud ≤ length voxels)%nat ∧
  (cloud = [] ↔ voxels = []) ∧
  ∀ x y z, (x, y, z) ∈ cloud →
    x ∈ voxels.*1.*1 ∧ y ∈ voxels.*1.*2 ∧ z ∈ voxels.*2.
Proof.
  cbn zeta. rewrite point_cloud_found.
  destruct (found C segid frags) as [|v vs] eqn:Hf.
  - split; [done|]. split; [done|]. by intros x y z ?%elem_of_nil.
  - unfold unique_axis0. split; [|split].
    + etrans; [apply squeeze_length|].
      by rewrite (Permutation_length (merge_sort_Permutation _ _)), sort_axis0_length.
    + split; [|done]. intros Hnil. exfalso. revert Hnil. apply squeeze_nonempty.
      intros Hs. apply (f_equal length) in Hs.
      rewrite (Permutation_length (merge_sort_Permutation _ _)), sort_axis0_length in Hs.
      done.
    + intros x y z Hin%squeeze_subset. rewrite merge_sort_Permutation in Hin.
      by apply sort_axis0_columns.
Qed.

End MergeMore.

(** * Further properties of the stage-1 task *)
Module SkeletonTaskMore.
Import SkeletonTask.

(** ** Bounding boxes *)

Lemma grow_keeps (b : Bbox) (w u : coord) : inside b u → inside (grow b w) u.
Proof.
  destruct b as [[[x0 y0] z0] [[x1 y1] z1]], w as [[wx wy] wz], u as [[x y] z].
  cbn. lia.
Qed.

Lemma grow_takes (b : Bbox) (w : coord) : inside (grow b w) w.
Proof.
  destruct b as [[[x0 y0] z0] [[x1 y1] z1]], w as [[wx wy] wz]. cbn. lia.
Qed.

Lemma foldl_grow_inside (b : Bbox) (vs : list coord) (u : coord) :
  inside b u ∨ u ∈ vs → inside (foldl grow b vs) u.
Proof.
  revert b. induction vs as [|w vs IH]; intros b; cbn [foldl].
  - by intros [? | ?%elem_of_nil].
  - intros [Hb | [-> | Hu]%elem_of_cons]; apply IH.
    + left. by apply grow_keeps.
    + left. apply grow_takes.
    + by right.
Qed.

Lemma inside_volume (b : Bbox) (v : coord) : inside b v → 1 ≤ Bbox_volume b.
Proof.
  destruct b as [[[x0 y0] z0] [[x1 y1] z1]], v as [[x y] z].
  unfold inside, Bbox_volume. cbn. intros (Hx & Hy & Hz).
  assert (1 ≤ (x1 - x0) * (y1 - y0)) by nia. nia.
Qed.

(** [find_objects] raises [IndexError] exactly on the empty mask;
    on any other mask it returns a box that holds every voxel of the
    mask, so the box has volume at least one. *)
Lemma find_objects_bounds (s : gset coord) :
  (find_objects s = Raise IndexError ↔ s = ∅) ∧
  ∀ b, find_objects s = Ok b →
    1 ≤ Bbox_volume b ∧ ∀ v, v ∈ s → inside b v.
Proof.
  unfold find_objects. destruct (elements s) as [|v0 vs] eqn:He.
  - apply elements_empty_inv in He as ->%leibniz_equiv. split; [done|]. done.
  - assert (Hne : s ≠ ∅).
    { intros ->. by rewrite elements_empty in He. }
    split; [done|]. intros b [= <-].
    assert (Hall : ∀ v, v ∈ s →
              inside (foldl grow (MkBbox v0 (coord_add v0 (1, 1, 1))) vs) v).
    { intros v Hv%elem_of_elements. rewrite He in Hv. apply foldl_grow_inside.
      apply elem_of_cons in Hv as [-> | Hv]; [left | by right].
      destruct v0 as [[x y] z]. cbn. lia. }
    split; [|done]. apply (inside_volume _ v0), Hall, elem_of_elements.
    rewrite He. left.
Qed.

(** ** What the generator yields *)

Lemma translate_volume (b : Bbox) (v : coord) :
  Bbox_volume (Bbox_translate b v) = Bbox_volume b.
Proof.
  destruct b as [[[x0 y0] z0] [[x1 y1] z1]], v as [[dx dy] dz].
  unfold Bbox_volume. cbn. f_equal; [f_equal|]; lia.
Qed.

Lemma components_from_yields (comps : list (gset coord)) (all_dbf : gmap coord Q)
    (bbox : Bbox) (ks : list nat) dbf roi :
  (dbf, roi) ∈ (components_from comps all_dbf bbox ks).1 →
  ∃ (i : nat) roi0, i ∈ ks ∧ find_objects (component comps i) = Ok roi0 ∧
    1 < Bbox_volume roi0 ∧ roi = Bbox_translate roi0 (minpt bbox) ∧
    dbf = crop (component comps i) all_dbf roi0.
Proof.
  induction ks as [|i ks IH]; cbn [components_from].
  - by intros ?%elem_of_nil.
  - destruct (find_objects (component comps i)) as [roi0|e] eqn:Hf;
      [|by intros ?%elem_of_nil].
    case_decide as Hvol.
    + intros (j & r & Hj & Hr)%IH. exists j, r. split; [by right | done].
    + cbn [fst]. intros [[= -> ->] | (j & r & Hj & Hr)%IH]%elem_of_cons.
      * exists i, roi0. split; [left|]. split; [done|]. split; [lia | done].
      * exists j, r. split; [by right | done].
Qed.

(** X18.  Every cutout [components] yields comes from one label
    [i >= 1] of the labelling: its box is the box of the voxels of that
    label, of volume greater than one, moved by the origin of the chunk
    (which leaves the volume as it is), and its array is the crop of that
    label's mask. *)
Theorem components_yields (label : gset coord → list (gset coord))
    (segid : Z) (all_labels : gmap coord Z) (all_dbf : gmap coord Q)
    (bbox : Bbox) dbf roi :
  let comps := label (select all_labels segid) in
  (dbf, roi) ∈ (components label segid all_labels all_dbf bbox).1 →
  ∃ (i : nat) roi0, (1 ≤ i)%nat ∧
    find_objects (component comps i) = Ok roi0 ∧
    roi = Bbox_translate roi0 (minpt bbox) ∧
    1 < Bbox_volume roi ∧ Bbox_volume roi = Bbox_volume roi0 ∧
    dbf = crop (component comps i) all_dbf roi0.
Proof.
  cbn zeta. unfold components.
  intros (i & roi0 & Hi & Hf & Hvol & -> & ->)%components_from_yields.
  exists i, roi0. apply elem_of_seq in Hi. rewrite translate_volume.
  split; [lia|]. done.
Qed.

(** The one cutout yielded for [two_blobs]. *)
Lemma components_yields_witness :
  ∃ dbf (i : nat) roi0, (1 ≤ i)%nat ∧
    find_objects (component (label_runs (select two_blobs 7)) i) = Ok roi0 ∧
    MkBbox (0, 0, 0) (2, 1, 1) = Bbox_translate roi0 (minpt chunk) ∧
    1 < Bbox_volume (MkBbox (0, 0, 0) (2, 1, 1)) ∧
    Bbox_volume (MkBbox (0, 0, 0) (2, 1, 1)) = Bbox_volume roi0 ∧
    dbf = crop (component (label_runs (select two_blobs 7)) i) flat_dbf roi0.
Proof.
  eexists.
  apply (components_yields label_runs 7 two_blobs flat_dbf chunk _
           (MkBbox (0, 0, 0) (2, 1, 1))).
  replace (components label_runs 7 two_blobs flat_dbf chunk).1
    with [(crop (component (label_runs (select two_blobs 7)) 1) flat_dbf
             (MkBbox (0, 0, 0) (2, 1, 1)), MkBbox (0, 0, 0) (2, 1, 1))]
    by by vm_compute.
  left.
Defined.

(** ** The cropped array *)

Lemma elem_of_box_coords (b : Bbox) (v : coord) : v ∈ box_coords b → inside b v.
Proof.
  destruct b as [[[x0 y0] z0] [[x1 y1] z1]], v as [[x y] z].
  unfold box_coords, inside. cbn [minpt maxpt].
  intros (x' & (y' & (z' & Hv & Hz)%list_elem_of_bind & Hy)%list_elem_of_bind
          & Hx)%list_elem_of_bind.
  apply list_elem_of_singleton in Hv as [= -> -> ->].
  apply elem_of_seqZ in Hx, Hy, Hz. lia.
Qed.

(** X19.  The array handed to [skeletonize] represents a single label:
    an entry of the crop that is not zero stands at the place, counted
    from the corner of the box, of a voxel of the component, and it is
    the boundary distance of that voxel. *)
Theorem crop_single_label (comp : gset coord) (all_dbf : gmap coord Q)
    (roi : Bbox) (k : coord) (x : fval) :
  crop comp all_dbf roi !! k = Some x → Teasar.is_zero x = false →
  ∃ v d, v ∈ comp ∧ inside roi v ∧ k = coord_sub v (minpt roi) ∧
         all_dbf !! v = Some d ∧ x = Fin d.
Proof.
  unfold crop. intros Hk%elem_of_list_to_map_2 Hx.
  apply list_elem_of_fmap in Hk as (v & [= -> ->] & Hv%elem_of_box_coords).
  case_decide as Hc; [|done].
  destruct (all_dbf !! v) as [d|] eqn:Hd; [|done]. cbn in Hx.
  by exists v, d.
Qed.

(** The second entry of that cutout. *)
Lemma crop_single_label_witness :
  ∃ v d, v ∈ component (label_runs (select two_blobs 7)) 1 ∧
         inside (MkBbox (0, 0, 0) (2, 1, 1)) v ∧
         (1, 0, 0) = coord_sub v (minpt (MkBbox (0, 0, 0) (2, 1, 1))) ∧
         flat_dbf !! v = Some d ∧ Fin 1 = Fin d.
Proof.
  apply (crop_single_label (component (label_runs (select two_blobs 7)) 1)
           flat_dbf (MkBbox (0, 0, 0) (2, 1, 1)) (1, 0, 0) (Fin 1));
    by vm_compute.
Defined.

End SkeletonTaskMore.
